(** * Songs REST service: the request handlers of [backend/routes.py]

    A shallow embedding of the Flask handlers over a model of the
    [db.songs] collection, and the properties of the service's
    specification that can be stated about them.

    Python values are the [value] type below; a document of the
    collection (a top-level Python [dict]) is a finite map from field
    names to values; the handlers run in a state-and-exception monad
    whose state is the collection, the [ObjectId] generator, the
    application log and a record of the store calls made. *)

From Stdlib Require Import ZArith NArith List Ascii String Bool Lia.
From stdpp Require Import gmap strings list fin_maps.

Set Warnings "-register-all".

Local Open Scope string_scope.
Local Open Scope list_scope.
Local Open Scope Z_scope.

(** ** Values *)

(** [bson.objectid.ObjectId]: twelve bytes, kept as the number they
    denote in big-endian order. *)
Record ObjectId := Oid { oid_binary : N }.

(** What [request.get_json()] yields and what the collection stores.
    A nested [dict] keeps its insertion order; [VOid] never comes out of
    a JSON body, it is produced by the store client only. A JSON number
    with a fraction or an exponent (a Python [float]) has no
    counterpart here: the properties speak of payloads and records
    without one. *)
Inductive value :=
  | VNull
  | VBool (b : bool)
  | VInt (n : Z)
  | VStr (s : string)
  | VOid (o : ObjectId)
  | VList (l : list value)
  | VObj (fields : list (string * value)).

(** The induction principle that reaches the values nested in lists and
    in dictionaries. *)
Section value_induction.
Variable P : value -> Prop.
Hypothesis Hnull : P VNull.
Hypothesis Hbool : forall b, P (VBool b).
Hypothesis Hint : forall n, P (VInt n).
Hypothesis Hstr : forall s, P (VStr s).
Hypothesis Hoid : forall o, P (VOid o).
Hypothesis Hlist : forall l, Forall P l -> P (VList l).
Hypothesis Hobj : forall fs, Forall (fun kv => P (snd kv)) fs -> P (VObj fs).

Fixpoint value_nested_ind (v : value) : P v :=
  match v with
  | VNull => Hnull
  | VBool b => Hbool b
  | VInt n => Hint n
  | VStr s => Hstr s
  | VOid o => Hoid o
  | VList l =>
      Hlist l ((fix go (l : list value) : Forall P l :=
                  match l with
                  | [] => Forall_nil_2 P
                  | x :: l' => Forall_cons_2 P x l' (value_nested_ind x) (go l')
                  end) l)
  | VObj fs =>
      Hobj fs ((fix go (fs : list (string * value))
                  : Forall (fun kv => P (snd kv)) fs :=
                  match fs with
                  | [] => Forall_nil_2 _
                  | kv :: fs' =>
                      Forall_cons_2 (fun kv => P (snd kv)) kv fs'
                        (value_nested_ind (snd kv)) (go fs')
                  end) fs)
  end.
End value_induction.

(** Equality of values, as the store compares a field with a query
    value: same type and same contents, nested dictionaries field by
    field in order. *)
Fixpoint value_eqb (v w : value) : bool :=
  match v, w with
  | VNull, VNull => true
  | VBool a, VBool b => Bool.eqb a b
  | VInt a, VInt b => Z.eqb a b
  | VStr a, VStr b => String.eqb a b
  | VOid a, VOid b => N.eqb (oid_binary a) (oid_binary b)
  | VList l, VList m =>
      (fix go (l m : list value) : bool :=
         match l, m with
         | [], [] => true
         | x :: l', y :: m' => value_eqb x y && go l' m'
         | _, _ => false
         end) l m
  | VObj l, VObj m =>
      (fix go (l m : list (string * value)) : bool :=
         match l, m with
         | [], [] => true
         | (k, x) :: l', (k', y) :: m' =>
             String.eqb k k' && value_eqb x y && go l' m'
         | _, _ => false
         end) l m
  | _, _ => false
  end.

(** Python's truth value of an object, as [if not song:] takes it. *)
Definition truthy (v : value) : bool :=
  match v with
  | VNull => false
  | VBool b => b
  | VInt n => negb (n =? 0)
  | VStr s => negb (String.eqb s "")
  | VOid _ => true
  | VList l => negb (Nat.eqb (List.length l) 0)
  | VObj fs => negb (Nat.eqb (List.length fs) 0)
  end.

(** [d[k]] and [k in d] on a nested dictionary. *)
Fixpoint assoc_get (k : string) (fs : list (string * value)) : option value :=
  match fs with
  | [] => None
  | (k', v) :: fs' => if String.eqb k k' then Some v else assoc_get k fs'
  end.

(** ** Path segments

    A path segment is a Python [str]; a character of the model is a code
    point below 256 (Latin-1). *)

Definition code (c : ascii) : N := N_of_ascii c.

Definition is_decimal_char (c : ascii) : bool :=
  ((48 <=? code c) && (code c <=? 57))%N.

(** [str.isdigit] also accepts the superscript digits, which are digits
    (U+00B2, U+00B3, U+00B9) but not decimal characters. *)
Definition is_digit_char (c : ascii) : bool :=
  is_decimal_char c
  || (code c =? 178)%N || (code c =? 179)%N || (code c =? 185)%N.

Definition isdigit (s : string) : bool :=
  match list_ascii_of_string s with
  | [] => false
  | cs => forallb is_digit_char cs
  end.

Definition isdecimal (s : string) : bool :=
  match list_ascii_of_string s with
  | [] => false
  | cs => forallb is_decimal_char cs
  end.

(** [sys.int_info.default_max_str_digits]: CPython refuses to convert a
    longer string of digits, leading zeros included. *)
Definition max_str_digits : nat := 4300.

(** [int(s)] on a string that passed [isdigit]: the decimal value, or
    [None] for the [ValueError] a non-decimal digit or a string of more
    than [max_str_digits] digits raises. *)
Definition py_int (s : string) : option Z :=
  if isdecimal s && (String.length s <=? max_str_digits)%nat then
    Some (fold_left (fun acc c => 10 * acc + (Z.of_N (code c) - 48))
            (list_ascii_of_string s) 0)
  else None.

Definition hex_value (c : ascii) : option N :=
  let n := code c in
  if ((48 <=? n) && (n <=? 57))%N then Some (n - 48)%N
  else if ((97 <=? n) && (n <=? 102))%N then Some (n - 87)%N
  else if ((65 <=? n) && (n <=? 70))%N then Some (n - 55)%N
  else None.

Fixpoint hex_fold (acc : N) (cs : list ascii) : option N :=
  match cs with
  | [] => Some acc
  | c :: cs' =>
      match hex_value c with
      | Some d => hex_fold (16 * acc + d)%N cs'
      | None => None
      end
  end.

(** [ObjectId(s)]: a 24-character hexadecimal string, [None] for the
    [InvalidId] any other string raises. ([bytes.fromhex] skips white
    space between two bytes; a 24-character string that holds some is
    taken as any other malformed string here.) *)
Definition ObjectId_of_str (s : string) : option ObjectId :=
  if Nat.eqb (String.length s) 24 then
    option_map Oid (hex_fold 0%N (list_ascii_of_string s))
  else None.

Definition hex_char (d : N) : ascii :=
  if (d <? 10)%N then ascii_of_N (48 + d) else ascii_of_N (87 + d).

Fixpoint hex_digits (k : nat) (n : N) (acc : string) : string :=
  match k with
  | O => acc
  | S k' => hex_digits k' (n / 16)%N (String (hex_char (n mod 16)%N) acc)
  end.

(** [str(oid)]: the 24 lower-case hexadecimal digits of the key. *)
Definition oid_str (o : ObjectId) : string :=
  hex_digits 24 (oid_binary o) "".

(** ** Documents and their JSON rendering *)

(** A document of the collection. *)
Abbreviation doc := (gmap string value).

(** The Python [dict] of a JSON object, as a document. *)
Definition doc_of_fields (fs : list (string * value)) : doc := list_to_map fs.

(** [json.loads(json_util.dumps(data))]: extended JSON turns an
    [ObjectId] into the object [{"$oid": "<hex>"}] and leaves the JSON
    types as they are. *)
Fixpoint parse_json_value (v : value) : value :=
  match v with
  | VOid o => VObj [("$oid", VStr (oid_str o))]
  | VList l => VList (List.map parse_json_value l)
  | VObj fs => VObj (List.map (fun kv => (fst kv, parse_json_value (snd kv))) fs)
  | _ => v
  end.

(** The fields of the object come in the order of [map_to_list]; the
    order of the keys of a JSON object carries no information. *)
Definition parse_json_doc (d : doc) : value :=
  VObj (map_to_list (parse_json_value <$> d)).

(** [parse_json] at the two types the handlers use it at: one document
    or [None], and a list of documents. *)
Definition parse_json (song : option doc) : value :=
  match song with
  | Some d => parse_json_doc d
  | None => VNull
  end.

Definition parse_json_list (songs : list doc) : value :=
  VList (List.map parse_json_doc songs).

(** The field of a JSON object, [None] on anything else. *)
Definition json_field (k : string) (j : value) : option value :=
  match j with
  | VObj fs => assoc_get k fs
  | _ => None
  end.

(** ** The world the handlers run in *)

Inductive exn :=
  | BadRequest          (* werkzeug: the body is not JSON *)
  | TypeError
  | ValueError
  | KeyError
  | InvalidId           (* bson.errors.InvalidId *)
  | PyMongoError        (* the store could not be reached or did not answer *)
  | DuplicateKeyError
  | WriteError          (* a write the store refuses *)
  | OperationFailure.   (* a command the store refuses *)

Inductive result (A : Type) :=
  | Return (a : A)
  | Raise (e : exn).
Arguments Return {A} a.
Arguments Raise {A} e.

(** A query document: the fields a record must carry, [[]] for [{}]. *)
Abbreviation query := (list (string * value)).

(** The methods of [db.songs] the handlers call, with their arguments. *)
Inductive store_op :=
  | OpCountDocuments (q : query)
  | OpFind (q : query)
  | OpFindOne (q : query)
  | OpInsertOne (document : value)
  | OpFindOneAndUpdate (q : query) (set : value)
  | OpDeleteOne (q : query).

Record store_call := StoreCall { call_op : store_op; call_raised : option exn }.

(** The pieces of an f-string: text, [{value}] and [{str(e)}]. *)
Inductive fpart :=
  | FLit (s : string)
  | FVal (v : value)
  | FExn (e : exn).

Abbreviation fstring := (list fpart).

Record world := World {
  songs : list doc;          (* the collection, in insertion order *)
  next_oid : N;              (* the ObjectId generator of the client *)
  faults : list bool;        (* which of the coming store calls fail *)
  calls : list store_call;   (* the store calls made, oldest first *)
  app_log : list fstring     (* app.logger.error *)
}.

Definition M (A : Type) : Type := world -> result A * world.

Definition ret {A} (a : A) : M A := fun w => (Return a, w).

Definition raise {A} (e : exn) : M A := fun w => (Raise e, w).

Definition bind {A B} (m : M A) (k : A -> M B) : M B :=
  fun w =>
    match m w with
    | (Return a, w') => k a w'
    | (Raise e, w') => (Raise e, w')
    end.

(** [try: body except Exception as e: handler(e)]; every exception of
    the model is an [Exception], so a bare [except:] is the same. *)
Definition try_except {A} (body : M A) (handler : exn -> M A) : M A :=
  fun w =>
    match body w with
    | (Return a, w') => (Return a, w')
    | (Raise e, w') => handler e w'
    end.

Declare Scope py_scope.
Delimit Scope py_scope with py.
Notation "x <- m ;; k" := (bind m (fun x => k))
  (at level 100, m at next level, right associativity) : py_scope.
Notation "m ;;; k" := (bind m (fun _ => k))
  (at level 100, right associativity) : py_scope.
Local Open Scope py_scope.

Definition logger_error (msg : fstring) : M unit :=
  fun w =>
    (Return tt,
     World (songs w) (next_oid w) (faults w) (calls w) (app_log w ++ [msg])).

(** [ObjectId()]: the next key of the generator. *)
Definition new_ObjectId : M ObjectId :=
  fun w =>
    (Return (Oid (next_oid w mod 2 ^ 96)%N),
     World (songs w) (N.succ (next_oid w)) (faults w) (calls w) (app_log w)).

(** The exception a call ended with, if it did. *)
Definition raised {A} (r : result A) : option exn :=
  match r with
  | Return _ => None
  | Raise e => Some e
  end.

(** A call of a collection method. The next entry of [faults] says
    whether this call fails to reach the store, which raises and leaves
    the collection as it is; otherwise the store runs [f]. Either way
    the call and the exception it raised are recorded. *)
Definition db_call {A} (op : store_op)
    (f : list doc -> result A * list doc) : M A :=
  fun w =>
    let '(failing, rest) :=
      match faults w with
      | [] => (false, [])
      | b :: fs => (b, fs)
      end in
    if failing then
      (Raise PyMongoError,
       World (songs w) (next_oid w) rest
         (calls w ++ [StoreCall op (Some PyMongoError)]) (app_log w))
    else
      let '(r, c) := f (songs w) in
      (r,
       World c (next_oid w) rest
         (calls w ++ [StoreCall op (raised r)]) (app_log w)).

(** A call the client rejects before it contacts the store. *)
Definition db_reject {A} (op : store_op) (e : exn) : M A :=
  fun w =>
    (Raise e,
     World (songs w) (next_oid w) (faults w)
       (calls w ++ [StoreCall op (Some e)]) (app_log w)).

(** ** The collection *)

Definition is_array (v : value) : bool :=
  match v with
  | VList _ => true
  | _ => false
  end.

(** A field answers a query value when it is equal to it, or when it is
    an array and one of its elements is; a record without the field
    answers [null]. (A query value that is an operator expression, such
    as [{"$gt": 0}], is compared like any other value here; the store
    would evaluate it.) *)
Definition field_answers (x v : value) : bool :=
  value_eqb x v
  || match v with
     | VList l => existsb (value_eqb x) l
     | _ => false
     end.

(** A record matches a query when every field of the query is
    answered. *)
Definition field_matches (d : doc) (kv : string * value) : bool :=
  match d !! fst kv with
  | Some v => field_answers (snd kv) v
  | None => value_eqb (snd kv) VNull
  end.

Definition matches (q : query) (d : doc) : bool :=
  forallb (field_matches d) q.

Definition count_documents (q : query) : M Z :=
  db_call (OpCountDocuments q)
    (fun c => (Return (Z.of_nat (List.length (List.filter (matches q) c))), c)).

(** [list(db.songs.find(q))] *)
Definition find (q : query) : M (list doc) :=
  db_call (OpFind q) (fun c => (Return (List.filter (matches q) c), c)).

Definition find_one (q : query) : M (option doc) :=
  db_call (OpFindOne q) (fun c => (Return (List.find (matches q) c), c)).

(** The native key is unique and never an array: the store refuses a
    document whose [_id] is one, or is the [_id] of a record. *)
Definition has_key (k : value) (d : doc) : bool :=
  match d !! "_id" with
  | Some v => value_eqb k v
  | None => false
  end.

Definition store_insert (d : doc) (k : value) (c : list doc)
    : result value * list doc :=
  if is_array k then (Raise WriteError, c)
  else if existsb (has_key k) c then (Raise DuplicateKeyError, c)
  else (Return k, c ++ [d]).

(** [db.songs.insert_one(document).inserted_id]: the client gives the
    document an [_id] when it has none. *)
Definition insert_one (document : value) : M value :=
  match document with
  | VObj fs =>
      let d := doc_of_fields fs in
      match d !! "_id" with
      | Some k => db_call (OpInsertOne document) (store_insert d k)
      | None =>
          o <- new_ObjectId ;;
          db_call (OpInsertOne document)
            (store_insert (<["_id" := VOid o]> d) (VOid o))
      end
  | _ => db_reject (OpInsertOne document) TypeError
  end.

(** [$set] cannot give a record another native key. *)
Definition changes_key (upd d : doc) : bool :=
  match upd !! "_id" with
  | Some k => negb (has_key k d)
  | None => false
  end.

(** The first record that matches is replaced by its merge with [upd]. *)
Fixpoint store_update (q : query) (upd : doc) (c : list doc)
    : result (option doc) * list doc :=
  match c with
  | [] => (Return None, [])
  | d :: c' =>
      if matches q d then
        if changes_key upd d then (Raise OperationFailure, c)
        else (Return (Some (upd ∪ d)), (upd ∪ d) :: c')
      else
        match store_update q upd c' with
        | (Return r, c'') => (Return r, d :: c'')
        | (Raise e, _) => (Raise e, c)
        end
  end.

(** [db.songs.find_one_and_update(q, {"$set": set},
    return_document=ReturnDocument.AFTER)]; the store refuses a [$set]
    that is not a document. Field names are taken as they are: the
    dotted paths and [$] operators of the store's update language are
    not interpreted. *)
Definition find_one_and_update (q : query) (set : value) : M (option doc) :=
  db_call (OpFindOneAndUpdate q set)
    (fun c =>
       match set with
       | VObj fs => store_update q (doc_of_fields fs) c
       | _ => (Raise OperationFailure, c)
       end).

(** The first record that matches is removed. *)
Fixpoint store_delete (q : query) (c : list doc) : Z * list doc :=
  match c with
  | [] => (0, [])
  | d :: c' =>
      if matches q d then (1, c')
      else let '(n, c'') := store_delete q c' in (n, d :: c'')
  end.

(** [db.songs.delete_one(q).deleted_count] *)
Definition delete_one (q : query) : M Z :=
  db_call (OpDeleteOne q)
    (fun c => let '(n, c') := store_delete q c in (Return n, c')).

(** ** Requests and responses *)

Inductive HTTPStatus :=
  | OK
  | CREATED
  | NO_CONTENT
  | FOUND
  | BAD_REQUEST
  | NOT_FOUND
  | INTERNAL_SERVER_ERROR.

Definition status_code (s : HTTPStatus) : Z :=
  match s with
  | OK => 200
  | CREATED => 201
  | NO_CONTENT => 204
  | FOUND => 302
  | BAD_REQUEST => 400
  | NOT_FOUND => 404
  | INTERNAL_SERVER_ERROR => 500
  end.

(** What a view returns first: a string, [jsonify(v)], or [jsonify] of
    an object with one f-string field. *)
Inductive body :=
  | Text (s : string)
  | Json (v : value)
  | JsonMessage (key : string) (msg : fstring).

Abbreviation response := (body * HTTPStatus)%type.

Definition jsonify (v : value) : body := Json v.

Inductive http_method := GET | POST | PUT | DELETE.

(** [request]: the method, and the JSON body when it has one that
    parses ([get_json] raises otherwise). *)
Record request := Request {
  method : http_method;
  json : option value
}.

Definition get_json (request : request) : M value :=
  match json request with
  | Some v => ret v
  | None => raise BadRequest
  end.

(** [k in song] and [song[k]] for a string [k], by the type of [song]. *)
Fixpoint is_prefix (p s : list ascii) : bool :=
  match p, s with
  | [], _ => true
  | a :: p', b :: s' => Ascii.eqb a b && is_prefix p' s'
  | _ :: _, [] => false
  end.

Fixpoint is_substring (p s : list ascii) : bool :=
  is_prefix p s ||
  match s with
  | [] => false
  | _ :: s' => is_substring p s'
  end.

Definition py_in (k : string) (song : value) : M bool :=
  match song with
  | VObj fs => ret (bool_decide (is_Some (doc_of_fields fs !! k)))
  | VList l => ret (existsb (value_eqb (VStr k)) l)
  | VStr s => ret (is_substring (list_ascii_of_string k) (list_ascii_of_string s))
  | _ => raise TypeError
  end.

Definition py_getitem (song : value) (k : string) : M value :=
  match song with
  | VObj fs =>
      match doc_of_fields fs !! k with
      | Some v => ret v
      | None => raise KeyError
      end
  | _ => raise TypeError
  end.

(** The truth value of what [find_one] returns: [None] and the empty
    dictionary are false. *)
Definition found (song : option doc) : bool :=
  match song with
  | Some d => negb (Nat.eqb (size d) 0)
  | None => false
  end.

(** [int(id)] *)
Definition int (id : string) : M Z :=
  match py_int id with
  | Some n => ret n
  | None => raise ValueError
  end.

(** [ObjectId(id)] *)
Definition ObjectId_ (id : string) : M ObjectId :=
  match ObjectId_of_str id with
  | Some o => ret o
  | None => raise InvalidId
  end.

Definition message (key text : string) : body :=
  jsonify (VObj [(key, VStr text)]).

(** ** The handlers *)

Definition health_check : M response :=
  ret (jsonify (VObj [("status", VStr "OK")]), OK).

Definition count_songs : M response :=
  try_except
    (count <- count_documents [] ;;
     ret (jsonify (VObj [("count", VInt count)]), OK))
    (fun e =>
       logger_error [FLit "Error counting songs: "; FExn e] ;;;
       ret (message "error" "Internal server error", INTERNAL_SERVER_ERROR)).

Definition get_all_songs : M response :=
  try_except
    (songs <- find [] ;;
     ret (jsonify (VObj [("songs", parse_json_list songs)]), OK))
    (fun e =>
       logger_error [FLit "Error fetching songs: "; FExn e] ;;;
       ret (message "error" "Internal server error", INTERNAL_SERVER_ERROR)).

Definition create_song (request : request) : M response :=
  try_except
    (song <- get_json request ;;
     if negb (truthy song) then
       ret (message "error" "No input data provided", BAD_REQUEST)
     else
       has_id <- py_in "id" song ;;
       duplicate <-
         (if has_id : bool then
            id <- py_getitem song "id" ;;
            existing_song <- find_one [("id", id)] ;;
            ret (if found existing_song then Some id else None)
          else ret None) ;;
       match duplicate with
       | Some id =>
           ret (JsonMessage "Message"
                  [FLit "song with id "; FVal id; FLit " already present"],
                FOUND)
       | None =>
           inserted_id <- insert_one song ;;
           new_song <- find_one [("_id", inserted_id)] ;;
           ret (jsonify (parse_json new_song), CREATED)
       end)
    (fun e =>
       logger_error [FLit "Error creating song: "; FExn e] ;;;
       ret (message "error" "Failed to create song", INTERNAL_SERVER_ERROR)).

Definition handle_songs (request : request) : M response :=
  match method request with
  | POST => create_song request
  | _ => get_all_songs
  end.

Definition handle_song (request : request) (id : Z) : M response :=
  match method request with
  | PUT =>
      try_except
        (song_data <- get_json request ;;
         if negb (truthy song_data) then
           ret (message "error" "No input data provided", BAD_REQUEST)
         else
           updated_song <- find_one_and_update [("id", VInt id)] song_data ;;
           if negb (found updated_song) then
             ret (message "message" "song not found", NOT_FOUND)
           else ret (jsonify (parse_json updated_song), CREATED))
        (fun e =>
           logger_error [FLit "Error updating song: "; FExn e] ;;;
           ret (message "error" "Failed to update song", INTERNAL_SERVER_ERROR))
  | DELETE =>
      try_except
        (deleted_count <- delete_one [("id", VInt id)] ;;
         if deleted_count =? 0 then
           ret (message "message" "song not found", NOT_FOUND)
         else ret (Text "", NO_CONTENT))
        (fun e =>
           logger_error [FLit "Error deleting song: "; FExn e] ;;;
           ret (message "error" "Failed to delete song", INTERNAL_SERVER_ERROR))
  | _ =>
      song <- find_one [("id", VInt id)] ;;
      if found song then ret (jsonify (parse_json song), OK)
      else ret (message "message" "song not found", NOT_FOUND)
  end.

Definition get_songs : M response :=
  try_except
    (songs <- find [] ;;
     ret (jsonify (parse_json_list songs), OK))
    (fun e =>
       logger_error [FLit "Error fetching songs: "; FExn e] ;;;
       ret (message "error" "Internal server error", INTERNAL_SERVER_ERROR)).

Definition get_song (id : string) : M response :=
  try_except
    (song <-
       (if isdigit id then
          n <- int id ;;
          find_one [("id", VInt n)]
        else
          try_except
            (o <- ObjectId_ id ;;
             find_one [("_id", VOid o)])
            (fun _ => ret None)) ;;
     if found song then ret (jsonify (parse_json song), OK)
     else ret (message "message" "Song not found", NOT_FOUND))
    (fun e =>
       logger_error
         [FLit "Invalid song ID: "; FLit id; FLit ", error: "; FExn e] ;;;
       ret (message "error" "Invalid song ID", BAD_REQUEST)).

Definition create_song_legacy (request : request) : M response :=
  create_song request.

(** The [return] inside the inner [except:] leaves the function at once:
    the lookup yields either that response or the updated record. *)
Definition update_song_legacy (request : request) (id : string) : M response :=
  try_except
    (song_data <- get_json request ;;
     if negb (truthy song_data) then
       ret (message "error" "No input data provided", BAD_REQUEST)
     else
       outcome <-
         (if isdigit id then
            n <- int id ;;
            updated_song <- find_one_and_update [("id", VInt n)] song_data ;;
            ret (inr updated_song)
          else
            try_except
              (o <- ObjectId_ id ;;
               updated_song <- find_one_and_update [("_id", VOid o)] song_data ;;
               ret (inr updated_song))
              (fun _ =>
                 ret (inl (message "error" "Invalid song ID format",
                           BAD_REQUEST)))) ;;
       match outcome with
       | inl early => ret early
       | inr updated_song =>
           if negb (found updated_song) then
             ret (message "message" "song not found", NOT_FOUND)
           else ret (jsonify (parse_json updated_song), CREATED)
       end)
    (fun e =>
       logger_error [FLit "Error updating song: "; FExn e] ;;;
       ret (message "error" "Failed to update song", INTERNAL_SERVER_ERROR)).

(** [result] is [None] or the [deleted_count] of the call. *)
Definition delete_song_legacy (id : string) : M response :=
  try_except
    (result <-
       (if isdigit id then
          n <- int id ;;
          deleted_count <- delete_one [("id", VInt n)] ;;
          ret (Some deleted_count)
        else
          try_except
            (o <- ObjectId_ id ;;
             deleted_count <- delete_one [("_id", VOid o)] ;;
             ret (Some deleted_count))
            (fun _ => ret None)) ;;
     if match result with
        | None => true
        | Some deleted_count => deleted_count =? 0
        end
     then ret (message "message" "Song not found", NOT_FOUND)
     else ret (Text "", NO_CONTENT))
    (fun e =>
       logger_error [FLit "Error deleting song: "; FExn e] ;;;
       ret (message "error" "Failed to delete song", INTERNAL_SERVER_ERROR)).

(** ** The routes *)

Inductive path :=
  | PathHealth                   (* /health *)
  | PathCount                    (* /count *)
  | PathSong                     (* /song *)
  | PathSongId (id : Z)          (* /song/<int:id> *)
  | PathSongs                    (* /songs *)
  | PathSongsId (id : string).   (* /songs/<id> *)

(** [@app.route]: the view of a path and a method, [None] when no rule
    matches. The rule for [/], which only describes the service, is left
    out. *)
Definition route (p : path) (request : request) : option (M response) :=
  match p, method request with
  | PathHealth, GET => Some health_check
  | PathCount, GET => Some count_songs
  | PathSong, (GET | POST) => Some (handle_songs request)
  | PathSongId id, (GET | PUT | DELETE) => Some (handle_song request id)
  | PathSongs, GET => Some get_songs
  | PathSongs, POST => Some (create_song_legacy request)
  | PathSongsId id, GET => Some (get_song id)
  | PathSongsId id, PUT => Some (update_song_legacy request id)
  | PathSongsId id, DELETE => Some (delete_song_legacy id)
  | _, _ => None
  end.

(** ** Notions the properties are stated with *)

(** No record of the list matches [q]. *)
Definition unmatched (q : query) (c : list doc) : Prop :=
  Forall (fun d => matches q d = false) c.

(** *** Documents the store takes as they are written

    The client encodes an integer in at most eight bytes and the store
    limits the size and the nesting of a document; in [$set], the store
    reads a field name with a dot as a path and refuses one that starts
    with a dollar sign. The model of the store takes every field name
    and every value as it is, which is what the store does with the
    documents below; a property that depends on what the store makes of
    a document says so with [storable]. *)

(** An integer of at most eight bytes. *)
Definition int64 (n : Z) : bool := (- 2 ^ 63 <=? n) && (n <? 2 ^ 63).

(** A field name without a dot or a NUL character, not empty and not
    starting with a dollar sign. *)
Definition plain_name (k : string) : bool :=
  match list_ascii_of_string k with
  | [] => false
  | c :: cs =>
      negb (code c =? 36)%N
      && forallb (fun x => negb ((code x =? 46) || (code x =? 0))%N) (c :: cs)
  end.

(** Plain field names, no name twice in a dictionary, and eight-byte
    integers down to [depth] levels, and nothing below. *)
Fixpoint plain_within (depth : nat) (v : value) {struct v} : bool :=
  match depth with
  | O => false
  | S depth' =>
      match v with
      | VInt n => int64 n
      | VList l =>
          (fix go (l : list value) : bool :=
             match l with
             | [] => true
             | x :: l' => plain_within depth' x && go l'
             end) l
      | VObj fs =>
          (fix go (fs : list (string * value)) : bool :=
             match fs with
             | [] => true
             | (k, x) :: fs' =>
                 plain_name k
                 && negb (existsb (fun kv => String.eqb k (fst kv)) fs')
                 && plain_within depth' x && go fs'
             end) fs
      | _ => true
      end
  end.

(** An upper bound of the size of the BSON encoding of a value: a
    character takes at most two bytes, an element of an array at most
    24 beside its value. *)
Fixpoint bson_size (v : value) : Z :=
  match v with
  | VNull => 0
  | VBool _ => 1
  | VInt _ => 8
  | VStr s => 5 + 2 * Z.of_nat (String.length s)
  | VOid _ => 12
  | VList l =>
      5 + (fix go (l : list value) : Z :=
             match l with
             | [] => 0
             | x :: l' => 24 + bson_size x + go l'
             end) l
  | VObj fs =>
      5 + (fix go (fs : list (string * value)) : Z :=
             match fs with
             | [] => 0
             | (k, x) :: fs' =>
                 2 + 2 * Z.of_nat (String.length k) + bson_size x + go fs'
             end) fs
  end.

(** The store's limits: 16 MiB for a document, and 100 levels of
    nesting, of which the properties use 64. *)
Definition max_bson_size : Z := 16777216.
Definition max_nesting : nat := 64.


(** A payload the client encodes and the store takes as it is written,
    with room for the native key. *)
Definition storable (v : value) : bool :=
  plain_within max_nesting v && (bson_size v + 32 <=? max_bson_size).

(** *** Response bodies *)

(** A value of the JSON types only: no [ObjectId] anywhere in it. *)
Fixpoint is_json (v : value) : bool :=
  match v with
  | VOid _ => false
  | VList l => forallb is_json l
  | VObj fs => forallb (fun kv => is_json (snd kv)) fs
  | _ => true
  end.

(** [j] shows the record [d]: it is an object with the fields of [d]
    and no other, a field of the JSON types as it is stored and an
    [ObjectId] as the object [{"$oid": "<24 hexadecimal digits>"}]. *)
Definition renders (d : doc) (j : value) : Prop :=
  (exists fs, j = VObj fs) /\
  forall k,
    match d !! k with
    | None => json_field k j = None
    | Some (VOid o) =>
        json_field k j = Some (VObj [("$oid", VStr (oid_str o))])
    | Some v => is_json v = true -> json_field k j = Some v
    end.

(** [j] shows a record of [c] that has a native key. *)
Definition rendered_from (c : list doc) (j : value) : Prop :=
  exists d, In d c /\ is_Some (d !! "_id") /\ renders d j.

(** *** Store calls and the log *)

(** The store calls made so far that raised. *)
Definition failed_calls (w : world) : list store_call :=
  List.filter (fun c => bool_decide (is_Some (call_raised c))) (calls w).

(** A store call of the run from [w] to [w'] raised. *)
Definition store_failed (w w' : world) : Prop :=
  (List.length (failed_calls w) < List.length (failed_calls w'))%nat.

Definition failure_count {A} (r : result A) : nat :=
  match r with
  | Return _ => 0
  | Raise _ => 1
  end.

(** The run from [w] to [w'] logged one message. *)
Definition logged_once (w w' : world) : Prop :=
  exists msg, app_log w' = app_log w ++ [msg].

(** The status of the response of a run, [None] when the view raised. *)
Definition status_of (r : result response) : option HTTPStatus :=
  match r with
  | Return (_, st) => Some st
  | Raise _ => None
  end.

(** *** Native keys *)

(** The native keys of the records, in the order of the collection. *)
Definition native_keys (c : list doc) : list (option value) :=
  List.map (fun d => d !! "_id") c.

(** Every record has a native key, which is no array, and no two
    records share one. *)
Definition well_keyed (c : list doc) : Prop :=
  Forall (fun d => exists k, d !! "_id" = Some k /\ is_array k = false) c
  /\ NoDup (native_keys c).

(** The generator is ahead of the keys it gave out: the next
    [ObjectId()] is none of them. *)
Definition generator_ahead (w : world) : Prop :=
  (next_oid w < 2 ^ 96)%N /\
  Forall (fun d => forall o, d !! "_id" = Some (VOid o) ->
                             (oid_binary o < next_oid w)%N) (songs w).

(** [c'] is [c] without its first record that matches [q]. *)
Definition removed_first (q : query) (c c' : list doc) : Prop :=
  exists l1 d l2,
    c = l1 ++ d :: l2 /\ unmatched q l1 /\ matches q d = true /\
    c' = l1 ++ l2.

(** * Properties *)

(** ** Equality of values *)

Lemma value_eqb_eq (v w : value) : value_eqb v w = true <-> v = w.
Proof.
  revert w. induction v as [| b | n | s | o | l IH | fs IH] using value_nested_ind;
    intros w; destruct w as [| b' | n' | s' | o' | l' | fs']; simpl;
    try (split; [discriminate | congruence]); try tauto.
  - rewrite Bool.eqb_true_iff. split; congruence.
  - rewrite Z.eqb_eq. split; congruence.
  - rewrite String.eqb_eq. split; congruence.
  - rewrite N.eqb_eq. destruct o, o'; simpl. split; congruence.
  - revert l'. induction IH as [| x l Hx _ IHl]; intros [| y l']; simpl;
      try (split; [discriminate | congruence]); try tauto.
    rewrite andb_true_iff, Hx, IHl. split; [intros [-> H]; congruence | ].
    intros H; injection H as -> ->. tauto.
  - revert fs'. induction IH as [| [k x] fs Hx _ IHfs]; intros [| [k' y] fs']; simpl;
      try (split; [discriminate | congruence]); try tauto.
    simpl in Hx.
    rewrite !andb_true_iff, String.eqb_eq, Hx, IHfs.
    split; [intros [[-> ->] H]; congruence | ].
    intros H; injection H as -> -> ->. tauto.
Qed.

Lemma value_eqb_refl (v : value) : value_eqb v v = true.
Proof. by apply value_eqb_eq. Qed.

Lemma value_eqb_neq (v w : value) : value_eqb v w = false <-> v <> w.
Proof.
  rewrite <- value_eqb_eq. destruct (value_eqb v w); split; congruence.
Qed.

(** ** The collection operations *)

Section collection.
Variable q : query.

Local Abbreviation unmatched := (unmatched q).

Lemma find_unmatched c : unmatched c -> List.find (matches q) c = None.
Proof.
  induction 1 as [| d c Hd _ IH]; simpl; [done |]. by rewrite Hd.
Qed.


Lemma find_split c d :
  List.find (matches q) c = Some d ->
  exists l1 l2, c = l1 ++ d :: l2 /\ unmatched l1 /\ matches q d = true.
Proof.
  induction c as [| x c IH]; simpl; [done |].
  destruct (matches q x) eqn:Hx.
  - intros [= ->]. exists [], c. repeat split; [constructor | done].
  - intros H. destruct (IH H) as (l1 & l2 & -> & Hl1 & Hd).
    exists (x :: l1), l2. repeat split; [by constructor | done].
Qed.

Lemma find_unmatched_inv c :
  List.find (matches q) c = None -> unmatched c.
Proof.
  induction c as [| x c IH]; simpl; [constructor |].
  destruct (matches q x) eqn:Hx; [done |]. intros H.
  apply Forall_cons; split; [done | by apply IH].
Qed.

Lemma store_delete_unmatched c : unmatched c -> store_delete q c = (0, c).
Proof.
  induction 1 as [| d c Hd _ IH]; simpl; [done |]. by rewrite Hd, IH.
Qed.

Lemma store_delete_first l1 d l2 :
  unmatched l1 -> matches q d = true ->
  store_delete q (l1 ++ d :: l2) = (1, l1 ++ l2).
Proof.
  intros H Hd. induction H as [| x l1 Hx _ IH]; simpl.
  - by rewrite Hd.
  - by rewrite Hx, IH.
Qed.

(** [deleted_count] is 0 or 1, and 0 leaves the collection alone. *)
Lemma store_delete_count c :
  (fst (store_delete q c) = 0 /\ snd (store_delete q c) = c /\ unmatched c)
  \/ (fst (store_delete q c) = 1 /\ List.find (matches q) c <> None).
Proof.
  induction c as [| d c IH]; simpl.
  - left. repeat split. constructor.
  - destruct (matches q d) eqn:Hd; [by right |].
    destruct (store_delete q c) as [n c']; simpl in *.
    destruct IH as [(-> & -> & H) | [-> H]]; [left | by right].
    repeat split. by constructor.
Qed.

Variable upd : doc.

Lemma store_update_unmatched c :
  unmatched c -> store_update q upd c = (Return None, c).
Proof.
  induction 1 as [| d c Hd _ IH]; simpl; [done |]. by rewrite Hd, IH.
Qed.

Lemma store_update_first l1 d l2 :
  unmatched l1 -> matches q d = true -> changes_key upd d = false ->
  store_update q upd (l1 ++ d :: l2)
  = (Return (Some (upd ∪ d)), l1 ++ (upd ∪ d) :: l2).
Proof.
  intros H Hd Hk. induction H as [| x l1 Hx _ IH]; simpl.
  - by rewrite Hd, Hk.
  - by rewrite Hx, IH.
Qed.

Lemma store_update_refused l1 d l2 :
  unmatched l1 -> matches q d = true -> changes_key upd d = true ->
  store_update q upd (l1 ++ d :: l2) = (Raise OperationFailure, l1 ++ d :: l2).
Proof.
  intros H Hd Hk. induction H as [| x l1 Hx _ IH]; simpl.
  - by rewrite Hd, Hk.
  - by rewrite Hx, IH.
Qed.

(** What [store_update] can answer: nothing matched, the first match
    was merged, or the update was refused; only the second changes the
    collection. *)
Lemma store_update_cases c :
  (unmatched c /\ store_update q upd c = (Return None, c))
  \/ (exists l1 d l2,
        c = l1 ++ d :: l2 /\ unmatched l1 /\ matches q d = true /\
        ((changes_key upd d = false /\
          store_update q upd c
          = (Return (Some (upd ∪ d)), l1 ++ (upd ∪ d) :: l2))
         \/ (changes_key upd d = true /\
             store_update q upd c = (Raise OperationFailure, c)))).
Proof.
  destruct (List.find (matches q) c) as [d |] eqn:Hf.
  - right. destruct (find_split _ _ Hf) as (l1 & l2 & -> & Hl1 & Hd).
    exists l1, d, l2. repeat split; try done.
    destruct (changes_key upd d) eqn:Hk; [right | left]; split; try done.
    + by apply store_update_refused.
    + by apply store_update_first.
  - left. apply find_unmatched_inv in Hf. split; [done |].
    by apply store_update_unmatched.
Qed.
End collection.

Lemma field_answers_refl (v : value) : field_answers v v = true.
Proof. unfold field_answers. by rewrite value_eqb_refl. Qed.

(** A field that is no array answers the value it is equal to, and no
    other. *)
Lemma field_answers_scalar (x v : value) :
  is_array v = false -> field_answers x v = true <-> v = x.
Proof.
  intros Hv. unfold field_answers.
  assert (E : match v with
              | VList l => existsb (value_eqb x) l
              | _ => false
              end = false) by (by destruct v).
  rewrite E, orb_false_r, value_eqb_eq. split; congruence.
Qed.

Lemma matches_one (k : string) (x : value) (d : doc) :
  matches [(k, x)] d = field_matches d (k, x).
Proof. unfold matches; simpl. by rewrite andb_true_r. Qed.

(** A record that carries [v] under [k] matches the query for it. *)
Lemma matches_field (k : string) (v : value) (d : doc) :
  d !! k = Some v -> matches [(k, v)] d = true.
Proof.
  intros H. rewrite matches_one. unfold field_matches; simpl.
  rewrite H. apply field_answers_refl.
Qed.

Lemma matches_scalar (k : string) (x v : value) (d : doc) :
  d !! k = Some v -> is_array v = false ->
  matches [(k, x)] d = true <-> v = x.
Proof.
  intros H Hv. rewrite matches_one. unfold field_matches; simpl.
  rewrite H. by apply field_answers_scalar.
Qed.

(** A record without the field matches the query for [null] only. *)
Lemma matches_missing (k : string) (x : value) (d : doc) :
  d !! k = None -> matches [(k, x)] d = true <-> x = VNull.
Proof.
  intros H. rewrite matches_one. unfold field_matches; simpl.
  rewrite H. apply value_eqb_eq.
Qed.

Lemma matches_has_field (k : string) (x : value) (d : doc) :
  matches [(k, x)] d = true -> x <> VNull -> is_Some (d !! k).
Proof.
  intros H Hx. destruct (d !! k) eqn:E; [eauto |].
  by apply (matches_missing k x d E) in H.
Qed.

(** The native key of a record is compared as it is. *)
Lemma has_key_field (k : value) (d : doc) :
  has_key k d = true <-> d !! "_id" = Some k.
Proof.
  unfold has_key. destruct (d !! "_id") as [v |]; [| split; discriminate].
  rewrite value_eqb_eq. split; congruence.
Qed.

Lemma existsb_has_key (k : value) (c : list doc) :
  Forall (fun d => d !! "_id" <> Some k) c -> existsb (has_key k) c = false.
Proof.
  induction 1 as [| d c Hd _ IH]; simpl; [done |]. rewrite IH, orb_false_r.
  destruct (has_key k d) eqn:E; [| done]. by apply has_key_field in E.
Qed.

Lemma existsb_has_key_inv (k : value) (c : list doc) :
  existsb (has_key k) c = false -> Forall (fun d => d !! "_id" <> Some k) c.
Proof.
  intros H. apply Forall_forall. intros d Hd Hk.
  apply has_key_field in Hk.
  assert (He : existsb (has_key k) c = true).
  { apply existsb_exists. exists d. split; [by apply list_elem_of_In | done]. }
  congruence.
Qed.

(** What [store_insert] can answer: a refusal that leaves the collection
    alone, or the key of the document, which is then the last record;
    the key is no array and no record carried it. *)
Lemma store_insert_cases (d : doc) (k : value) (c c' : list doc)
    (r : result value) :
  store_insert d k c = (r, c') ->
  (exists e, r = Raise e /\ c' = c)
  \/ (r = Return k /\ c' = c ++ [d] /\ is_array k = false /\
      Forall (fun x => x !! "_id" <> Some k) c).
Proof.
  unfold store_insert. destruct (is_array k) eqn:Ha.
  { intros [= <- <-]. left. eauto. }
  destruct (existsb (has_key k) c) eqn:E; intros [= <- <-]; [left; eauto |].
  right. repeat split. by apply existsb_has_key_inv.
Qed.

Lemma store_insert_fresh (d : doc) (k : value) (c : list doc) :
  is_array k = false -> Forall (fun x => x !! "_id" <> Some k) c ->
  store_insert d k c = (Return k, c ++ [d]).
Proof.
  intros Ha Hf. unfold store_insert. by rewrite Ha, existsb_has_key.
Qed.

Lemma filter_all (c : list doc) : List.filter (matches []) c = c.
Proof. induction c as [| d c IH]; simpl; [done | by rewrite IH]. Qed.

(** A record that carries a field is not the empty dictionary. *)
Lemma found_field (d : doc) (k : string) (v : value) :
  d !! k = Some v -> found (Some d) = true.
Proof.
  intros H. unfold found. apply negb_true_iff, Nat.eqb_neq.
  intros Hs. apply map_size_empty_iff in Hs. by rewrite Hs, lookup_empty in H.
Qed.

Lemma found_matching (k : string) (v : value) (c : list doc) (d : doc) :
  v <> VNull ->
  List.find (matches [(k, v)]) c = Some d -> found (Some d) = true.
Proof.
  intros Hv H. apply find_some in H as [_ H].
  destruct (matches_has_field k v d H Hv) as [x Hx].
  by apply found_field in Hx.
Qed.

(** ** Running a handler *)

(** A store call when no fault is scheduled: the store answers. *)
Lemma db_call_reliable {A} (op : store_op)
    (f : list doc -> result A * list doc) (w : world) :
  faults w = [] ->
  db_call op f w
  = (fst (f (songs w)),
     World (snd (f (songs w))) (next_oid w) []
       (calls w ++ [StoreCall op (raised (fst (f (songs w))))]) (app_log w)).
Proof. intros H. unfold db_call. rewrite H. by destruct (f (songs w)). Qed.

(** A store call when the next one is scheduled to fail. *)
Lemma db_call_failing {A} (op : store_op)
    (f : list doc -> result A * list doc) (w : world) (fs : list bool) :
  faults w = true :: fs ->
  db_call op f w
  = (Raise PyMongoError,
     World (songs w) (next_oid w) fs
       (calls w ++ [StoreCall op (Some PyMongoError)]) (app_log w)).
Proof. intros H. unfold db_call. by rewrite H. Qed.

Arguments truthy : simpl never.
Arguments found : simpl never.
Arguments doc_of_fields : simpl never.
Arguments parse_json : simpl never.
Arguments parse_json_doc : simpl never.
Arguments parse_json_list : simpl never.
Arguments matches : simpl never.

(** Unfolds the handlers and the monad, and lets the store answer the
    calls of a world without scheduled faults. *)
Ltac handler :=
  repeat
    (cbv beta iota zeta delta
       [handle_songs create_song_legacy create_song handle_song
        get_all_songs get_songs get_song update_song_legacy
        delete_song_legacy count_songs health_check
        try_except bind ret raise logger_error get_json py_in py_getitem
        int ObjectId_ find_one_and_update find_one find count_documents
        delete_one insert_one db_reject new_ObjectId json method
        songs next_oid faults calls app_log fst snd negb raised];
     try rewrite db_call_reliable by reflexivity).

Lemma truthy_fields (fs : list (string * value)) :
  fs <> [] -> truthy (VObj fs) = true.
Proof. by destruct fs. Qed.

Lemma fields_nonempty (fs : list (string * value)) (k : string) (v : value) :
  doc_of_fields fs !! k = Some v -> fs <> [].
Proof. intros H ->. unfold doc_of_fields in H. by rewrite list_to_map_nil in H. Qed.

(** ** Rendering a record *)

Lemma assoc_get_elem_of (k : string) (v : value) (fs : list (string * value)) :
  NoDup fs.*1 -> (k, v) ∈ fs -> assoc_get k fs = Some v.
Proof.
  induction fs as [| [k' v'] fs IH]; simpl; intros Hnd Hin.
  - by apply elem_of_nil in Hin.
  - apply NoDup_cons in Hnd as [Hk' Hnd].
    apply elem_of_cons in Hin as [[= <- <-] | Hin].
    + by rewrite String.eqb_refl.
    + destruct (String.eqb_spec k k') as [<- | _]; [| by apply IH].
      exfalso. apply Hk'. apply list_elem_of_fmap. by exists (k, v).
Qed.

Lemma assoc_get_None (k : string) (fs : list (string * value)) :
  (forall v, (k, v) ∉ fs) -> assoc_get k fs = None.
Proof.
  induction fs as [| [k' v'] fs IH]; simpl; intros H; [done |].
  destruct (String.eqb_spec k k') as [<- | _].
  - exfalso. apply (H v'). by left.
  - apply IH. intros v Hv. apply (H v). by right.
Qed.

Lemma json_field_parse_json_doc (d : doc) (k : string) (v : value) :
  d !! k = Some v ->
  json_field k (parse_json_doc d) = Some (parse_json_value v).
Proof.
  intros H. unfold parse_json_doc; simpl.
  apply assoc_get_elem_of; [apply NoDup_fst_map_to_list |].
  apply elem_of_map_to_list. by rewrite lookup_fmap, H.
Qed.

Lemma json_field_parse_json_doc_None (d : doc) (k : string) :
  d !! k = None -> json_field k (parse_json_doc d) = None.
Proof.
  intros H. unfold parse_json_doc; simpl. apply assoc_get_None.
  intros v Hv. apply elem_of_map_to_list in Hv.
  by rewrite lookup_fmap, H in Hv.
Qed.

Lemma parse_json_value_plain (v : value) :
  is_json v = true -> parse_json_value v = v.
Proof.
  induction v as [| b | n | s | o | l IH | fs IH] using value_nested_ind;
    simpl; try done.
  - intros H. f_equal. induction IH as [| x l Hx _ IHl]; simpl in *; [done |].
    apply andb_true_iff in H as [H1 H2]. by rewrite Hx, IHl.
  - intros H. f_equal.
    induction IH as [| [k x] fs Hx _ IHfs]; simpl in *; [done |].
    apply andb_true_iff in H as [H1 H2]. by rewrite Hx, IHfs.
Qed.

(** What [parse_json] makes of a record shows the record. *)
Lemma parse_json_doc_renders (d : doc) : renders d (parse_json_doc d).
Proof.
  split; [unfold parse_json_doc; eauto |]. intros k.
  destruct (d !! k) as [v |] eqn:E.
  - rewrite (json_field_parse_json_doc d k v E).
    destruct v; try done; intros Hv; by rewrite parse_json_value_plain.
  - by apply json_field_parse_json_doc_None.
Qed.

Lemma parse_json_list_renders (c : list doc) :
  Forall2 renders c (List.map parse_json_doc c).
Proof.
  induction c as [| d c IH]; simpl; constructor; [| done].
  apply parse_json_doc_renders.
Qed.

(** ** The two list routes *)

(** C7. For every state of the collection, GET /song answers 200 with
    an object whose [songs] key holds a list, and GET /songs answers 200
    with the same list as a bare array; the list shows the records of
    the collection one by one, in their order: each entry has the
    fields of its record and no other. *)
Theorem list_routes_envelope (w : world) (j : option value) :
  faults w = [] ->
  route PathSong (Request GET j) = Some (handle_songs (Request GET j)) /\
  route PathSongs (Request GET j) = Some get_songs /\
  exists js,
    fst (handle_songs (Request GET j) w)
    = Return (Json (VObj [("songs", VList js)]), OK) /\
    fst (get_songs w) = Return (Json (VList js), OK) /\
    Forall2 renders (songs w) js /\
    status_code OK = 200.
Proof.
  intros H. split; [done |]. split; [done |].
  exists (List.map parse_json_doc (songs w)).
  destruct w as [c n fl cs lg]; simpl in H; subst.
  split; [handler; by rewrite filter_all |].
  split; [handler; by rewrite filter_all |].
  split; [apply parse_json_list_renders | done].
Qed.

Lemma list_routes_envelope_witness :
  let d : doc := {["_id" := VOid (Oid 1); "id" := VInt 7]} in
  let w := World [d] 2 [] [] [] in
  exists js,
    fst (handle_songs (Request GET None) w)
    = Return (Json (VObj [("songs", VList js)]), OK) /\
    fst (get_songs w) = Return (Json (VList js), OK) /\
    Forall2 renders [d] js.
Proof.
  intros d w.
  destruct (list_routes_envelope w None eq_refl)
    as (_ & _ & js & H1 & H2 & H3 & _).
  exists js. split; [exact H1 |]. split; [exact H2 | exact H3].
Defined.

(** ** Duplicate ids on create *)

(** C2. When a record with [id = n] is in the collection, a create
    whose payload carries [id = n] answers the duplicate-conflict
    response, with the found-style status 302, and leaves the
    collection as it was: no second record with [id = n] is inserted. *)
Theorem create_song_duplicate (w : world) (m : http_method)
    (fs : list (string * value)) (n : Z) (d : doc) :
  faults w = [] ->
  In d (songs w) -> d !! "id" = Some (VInt n) ->
  doc_of_fields fs !! "id" = Some (VInt n) ->
  exists w',
    create_song (Request m (Some (VObj fs))) w
    = (Return (JsonMessage "Message"
                 [FLit "song with id "; FVal (VInt n); FLit " already present"],
               FOUND), w') /\
    songs w' = songs w /\ status_code FOUND = 302.
Proof.
  intros Hw Hd Hid Hfs.
  destruct (List.find (matches [("id", VInt n)]) (songs w)) as [d' |] eqn:Hfind.
  2:{ apply find_unmatched_inv in Hfind.
      apply (proj1 (Forall_forall _ _)) with (x := d) in Hfind.
      - by rewrite (matches_field _ _ _ Hid) in Hfind.
      - by apply list_elem_of_In. }
  destruct w as [c o fl cs lg]; simpl in *; subst fl.
  handler. rewrite truthy_fields by (by eapply fields_nonempty).
  rewrite bool_decide_eq_true_2 by eauto. rewrite Hfs.
  handler. rewrite Hfind, (found_matching "id" (VInt n) c d') by done.
  eexists. repeat split.
Qed.

Lemma create_song_duplicate_witness :
  exists w',
    create_song (Request POST (Some (VObj [("id", VInt 7); ("title", VStr "A")])))
      (World [{["_id" := VOid (Oid 0); "id" := VInt 7]}] 1 [] [] [])
    = (Return (JsonMessage "Message"
                 [FLit "song with id "; FVal (VInt 7); FLit " already present"],
               FOUND), w') /\
    songs w' = [{["_id" := VOid (Oid 0); "id" := VInt 7]}] /\
    status_code FOUND = 302.
Proof.
  apply (create_song_duplicate
           (World [{["_id" := VOid (Oid 0); "id" := VInt 7]}] 1 [] [] [])
           POST [("id", VInt 7); ("title", VStr "A")] 7
           {["_id" := VOid (Oid 0); "id" := VInt 7]}).
  - reflexivity.
  - simpl. left. reflexivity.
  - vm_compute. reflexivity.
  - vm_compute. reflexivity.
Defined.

(** ** Update is a shallow merge *)



(** A merge the store accepts keeps the native key. *)
Lemma merge_keeps_key (upd d : doc) :
  changes_key upd d = false -> (upd ∪ d) !! "_id" = d !! "_id".
Proof.
  unfold changes_key, has_key, field_matches; simpl. intros H.
  destruct (upd !! "_id") as [k |] eqn:Hk.
  - destruct (d !! "_id") as [v |] eqn:Hv; [| done].
    apply negb_false_iff, value_eqb_eq in H. subst v.
    by apply lookup_union_Some_l.
  - by rewrite lookup_union_r.
Qed.




(** ** Not-found, and deleting twice *)




(** ** What a store call can do *)

Lemma db_call_inv {A} (op : store_op) (f : list doc -> result A * list doc)
    (w w' : world) (r : result A) :
  db_call op f w = (r, w') ->
  next_oid w' = next_oid w /\ app_log w' = app_log w /\
  faults w' = tail (faults w) /\
  calls w' = calls w ++ [StoreCall op (raised r)] /\
  ((r = Raise PyMongoError /\ songs w' = songs w /\
    head (faults w) = Some true)
   \/ (f (songs w) = (r, songs w') /\ head (faults w) <> Some true)).
Proof.
  unfold db_call. destruct w as [c o fl cs lg]; simpl.
  destruct fl as [| [] fl]; simpl.
  - destruct (f c) as [r0 c0]. intros [= <- <-]; simpl.
    repeat split. by right.
  - intros [= <- <-]; simpl. repeat split. by left.
  - destruct (f c) as [r0 c0]. intros [= <- <-]; simpl.
    repeat split. by right.
Qed.

(** ** The native key in response bodies *)

(** A record with a store-assigned key shows it as the extended-JSON
    object [{"$oid": "<24 hexadecimal digits>"}]. *)
Lemma parse_json_doc_native_key (d : doc) (o : ObjectId) :
  d !! "_id" = Some (VOid o) ->
  json_field "_id" (parse_json_doc d)
  = Some (VObj [("$oid", VStr (oid_str o))]).
Proof. apply json_field_parse_json_doc. Qed.

Lemma hex_digits_length (k : nat) (n : N) (acc : string) :
  String.length (hex_digits k n acc) = (k + String.length acc)%nat.
Proof.
  revert n acc. induction k as [| k IH]; intros n acc; simpl; [done |].
  rewrite IH. simpl. lia.
Qed.

Lemma oid_str_length (o : ObjectId) : String.length (oid_str o) = 24%nat.
Proof. unfold oid_str. by rewrite hex_digits_length. Qed.

(** GET /song/7 on a collection whose record 7 has the key
    [ObjectId("0000000000000000000000ff")]: the [_id] of the body is an
    object, not a string. *)
Lemma native_key_not_a_string :
  let w := World [{["_id" := VOid (Oid 255); "id" := VInt 7]}] 256 [] [] [] in
  exists j,
    fst (handle_song (Request GET None) 7 w) = Return (Json j, OK) /\
    json_field "_id" j
    = Some (VObj [("$oid", VStr "0000000000000000000000ff")]) /\
    forall s, json_field "_id" j <> Some (VStr s).
Proof.
  eexists. split; [vm_compute; reflexivity |].
  split; [vm_compute; reflexivity |].
  intros s. vm_compute. discriminate.
Qed.

Lemma find_one_inv (q : query) (w w' : world) (r : result (option doc)) :
  find_one q w = (r, w') ->
  songs w' = songs w /\
  (r = Raise PyMongoError \/ r = Return (List.find (matches q) (songs w))).
Proof.
  intros H.
  apply db_call_inv in H
    as (_ & _ & _ & _ & [(-> & -> & _) | [[= <- <-] _]]); auto.
Qed.

Lemma find_inv (q : query) (w w' : world) (r : result (list doc)) :
  find q w = (r, w') ->
  songs w' = songs w /\
  (r = Raise PyMongoError \/ r = Return (List.filter (matches q) (songs w))).
Proof.
  intros H.
  apply db_call_inv in H
    as (_ & _ & _ & _ & [(-> & -> & _) | [[= <- <-] _]]); auto.
Qed.

Lemma count_documents_inv (q : query) (w w' : world) (r : result Z) :
  count_documents q w = (r, w') -> songs w' = songs w.
Proof.
  intros H.
  by apply db_call_inv in H
    as (_ & _ & _ & _ & [(-> & -> & _) | [[= <- <-] _]]).
Qed.

Lemma delete_one_inv (q : query) (w w' : world) (r : result Z) :
  delete_one q w = (r, w') ->
  (r = Raise PyMongoError /\ songs w' = songs w) \/
  (r = Return (fst (store_delete q (songs w))) /\
   songs w' = snd (store_delete q (songs w))).
Proof.
  intros H.
  apply db_call_inv in H as (_ & _ & _ & _ & [(-> & -> & _) | [H _]]); auto.
  destruct (store_delete q (songs w)). injection H as <- <-. by right.
Qed.

Lemma store_update_raise (q : query) (upd : doc) (c c' : list doc) (e : exn) :
  store_update q upd c = (Raise e, c') -> c' = c.
Proof.
  destruct (store_update_cases q upd c)
    as [[_ ->] | (l1 & d & l2 & -> & _ & _ & [[_ ->] | [_ ->]])];
    congruence.
Qed.

Lemma find_one_and_update_inv (q : query) (set : value) (w w' : world)
    (r : result (option doc)) :
  find_one_and_update q set w = (r, w') ->
  (exists e, r = Raise e /\ songs w' = songs w) \/
  (exists fs a, set = VObj fs /\ r = Return a /\
     store_update q (doc_of_fields fs) (songs w) = (Return a, songs w')).
Proof.
  intros H.
  apply db_call_inv in H as (_ & _ & _ & _ & [(-> & -> & _) | [H _]]); eauto.
  destruct set; try (injection H as <- <-; eauto).
  destruct r as [a | e]; [right; eauto |].
  left. exists e. split; [done |]. by apply store_update_raise in H.
Qed.

Lemma insert_one_inv (document : value) (w w' : world) (r : result value) :
  insert_one document w = (r, w') ->
  (exists e, r = Raise e /\ songs w' = songs w) \/
  (exists fs d k, document = VObj fs /\ r = Return k /\
     songs w' = songs w ++ [d] /\ d !! "_id" = Some k /\
     (forall f, f <> "_id" -> d !! f = doc_of_fields fs !! f) /\
     match doc_of_fields fs !! "_id" with
     | Some k' => k = k'
     | None => exists o, k = VOid o
     end).
Proof.
  assert (Hstore : forall d k w1 w2 r,
             db_call (OpInsertOne document) (store_insert d k) w1 = (r, w2) ->
             (exists e, r = Raise e /\ songs w2 = songs w1) \/
             (r = Return k /\ songs w2 = songs w1 ++ [d])).
  { intros d k w1 w2 r0 H.
    apply db_call_inv in H as (_ & _ & _ & _ & [(-> & -> & _) | [H _]]);
      eauto.
    apply store_insert_cases in H as [(e & -> & ->) | (-> & -> & _)]; eauto. }
  destruct document as [| | | | | | fs];
    try (intros [= <- <-]; left; eauto).
  unfold insert_one. destruct (doc_of_fields fs !! "_id") as [k |] eqn:Hk.
  - intros H. apply Hstore in H as [? | [-> ->]]; [by left | right].
    exists fs, (doc_of_fields fs), k. rewrite Hk. repeat split; done.
  - unfold bind, new_ObjectId. intros H.
    apply Hstore in H as [? | [-> H]]; [by left | right]. simpl in H.
    match type of H with
    | songs _ = _ ++ [<[_ := VOid ?o]> _] =>
        exists fs, (<["_id" := VOid o]> (doc_of_fields fs)), (VOid o)
    end.
    rewrite Hk. split; [done |]. split; [done |]. split; [done |].
    split; [apply lookup_insert_eq |].
    split; [| eauto]. intros f Hf. by rewrite lookup_insert_ne.
Qed.

(** ** Inverting a run *)

Lemma bind_inv {A B} (m : M A) (k : A -> M B) (w w' : world) (r : result B) :
  bind m k w = (r, w') ->
  (exists a w1, m w = (Return a, w1) /\ k a w1 = (r, w')) \/
  (exists e, m w = (Raise e, w') /\ r = Raise e).
Proof.
  unfold bind. destruct (m w) as [[a | e] w1]; [eauto |].
  intros [= <- <-]. eauto.
Qed.

Lemma try_except_inv {A} (body : M A) (handler : exn -> M A) (w w' : world)
    (r : result A) :
  try_except body handler w = (r, w') ->
  (exists a, body w = (Return a, w') /\ r = Return a) \/
  (exists e w1, body w = (Raise e, w1) /\ handler e w1 = (r, w')).
Proof.
  unfold try_except. destruct (body w) as [[a | e] w1]; [| eauto].
  intros [= <- <-]. eauto.
Qed.

Lemma logger_error_inv (msg : fstring) (w w' : world) (r : result unit) :
  logger_error msg w = (r, w') ->
  r = Return tt /\ songs w' = songs w /\ calls w' = calls w /\
  app_log w' = app_log w ++ [msg].
Proof. by intros [= <- <-]. Qed.

(** Takes a run apart along the binds, handlers and branches of the
    view, down to its store calls. *)
Ltac run_inv :=
  repeat
    (match goal with
     | H : bind _ _ _ = _ |- _ =>
         apply bind_inv in H as [(? & ? & ? & H) | (? & H & ?)]
     | H : try_except _ _ _ = _ |- _ =>
         apply try_except_inv in H as [(? & H & ?) | (? & ? & ? & H)]
     | H : ret _ _ = _ |- _ => unfold ret in H
     | H : raise _ _ = _ |- _ => unfold raise in H
     | H : get_json _ _ = _ |- _ => unfold get_json in H; simpl in H
     | H : py_in _ _ _ = _ |- _ => unfold py_in in H
     | H : py_getitem _ _ _ = _ |- _ => unfold py_getitem in H
     | H : int _ _ = _ |- _ => unfold int in H
     | H : ObjectId_ _ _ = _ |- _ => unfold ObjectId_ in H
     | H : logger_error _ _ = _ |- _ =>
         apply logger_error_inv in H as (? & ? & ? & ?)
     | H : (if ?b then _ else _) _ = _ |- _ => destruct b eqn:?
     | H : match ?x with _ => _ end _ = _ |- _ => destruct x eqn:?
     | H : (_, _) = (_, _) |- _ => injection H as ? ?
     | H : negb _ = false |- _ => apply negb_false_iff in H
     | H : negb _ = true |- _ => apply negb_true_iff in H
     end; simplify_eq).

(** ** The native key in response bodies, continued *)

Lemma rendered_from_record (c : list doc) (d : doc) :
  In d c -> is_Some (d !! "_id") -> rendered_from c (parse_json_doc d).
Proof.
  intros Hin Hk. exists d. repeat split; try done; apply parse_json_doc_renders.
Qed.

Lemma rendered_from_member (c : list doc) (d : doc) :
  Forall (fun d => is_Some (d !! "_id")) c -> In d c ->
  rendered_from c (parse_json_doc d).
Proof.
  intros Hk Hin. rewrite Forall_forall in Hk.
  apply rendered_from_record; [done |]. by apply Hk, list_elem_of_In.
Qed.

Lemma updated_record_rendered (q : query) (upd : doc) (c c' : list doc)
    (a : doc) :
  Forall (fun d => is_Some (d !! "_id")) c ->
  store_update q upd c = (Return (Some a), c') ->
  rendered_from c' (parse_json_doc a).
Proof.
  intros Hk H.
  destruct (store_update_cases q upd c)
    as [[_ E] | (l1 & d & l2 & -> & _ & _ & [[Hck E] | [_ E]])];
    rewrite E in H; try done.
  injection H as <- <-.
  apply Forall_app in Hk as [_ Hk]. apply Forall_cons in Hk as [Hd _].
  apply rendered_from_record.
  - apply in_or_app. right. by left.
  - by rewrite merge_keeps_key.
Qed.

Lemma find_one_renders (q : query) (w w' : world) (x : option doc) :
  Forall (fun d => is_Some (d !! "_id")) (songs w) ->
  find_one q w = (Return x, w') -> found x = true ->
  rendered_from (songs w') (parse_json x).
Proof.
  intros Hk H Hx. apply find_one_inv in H as [-> [? | [= ->]]]; [done |].
  destruct (List.find _ _) as [d |] eqn:Hd; [| done].
  apply find_some in Hd as [Hin _]. by apply rendered_from_member.
Qed.

Lemma find_one_and_update_renders (q : query) (set : value) (w w' : world)
    (x : option doc) :
  Forall (fun d => is_Some (d !! "_id")) (songs w) ->
  find_one_and_update q set w = (Return x, w') ->
  found x = true -> rendered_from (songs w') (parse_json x).
Proof.
  intros Hk H Hx.
  apply find_one_and_update_inv in H
    as [(e & ? & _) | (fs & a & -> & [= <-] & Hu)]; [done |].
  destruct x as [d |]; [| done]. by eapply updated_record_rendered.
Qed.

Lemma find_renders (w w' : world) (l : list doc) :
  Forall (fun d => is_Some (d !! "_id")) (songs w) ->
  find [] w = (Return l, w') ->
  Forall (rendered_from (songs w')) (List.map parse_json_doc l).
Proof.
  intros Hk H. apply find_inv in H as [-> [? | [= ->]]]; [done |].
  rewrite filter_all. apply Forall_forall. intros j Hj.
  apply list_elem_of_In, in_map_iff in Hj as (d & <- & Hd).
  by apply rendered_from_member.
Qed.

(** The lookup that follows an insert finds a record: the inserted one
    carries the key. *)
Lemma insert_then_find_renders (document k : value) (w w1 w' : world)
    (x : option doc) :
  Forall (fun d => is_Some (d !! "_id")) (songs w) ->
  insert_one document w = (Return k, w1) ->
  find_one [("_id", k)] w1 = (Return x, w') ->
  rendered_from (songs w') (parse_json x).
Proof.
  intros Hk Hi Hf.
  apply insert_one_inv in Hi
    as [(e & ? & _) | (fs' & d & k' & _ & [= <-] & Hs & Hd & _)];
    [done |].
  apply find_one_inv in Hf as [-> [? | [= ->]]]; [done |].
  destruct (List.find _ _) as [d' |] eqn:Hd'.
  - apply find_some in Hd' as [Hin _]. apply rendered_from_member; [| done].
    rewrite Hs. apply Forall_app. split; [done |].
    apply Forall_singleton. by rewrite Hd.
  - apply find_none with (x := d) in Hd'.
    + by rewrite (matches_field _ _ _ Hd) in Hd'.
    + rewrite Hs. apply in_or_app. right. by left.
Qed.

(** How a body that shows a record shows its native key. *)
Lemma renders_native_key (d : doc) (j k : value) :
  renders d j -> d !! "_id" = Some k ->
  match k with
  | VOid o =>
      json_field "_id" j = Some (VObj [("$oid", VStr (oid_str o))]) /\
      String.length (oid_str o) = 24%nat /\
      forall s, json_field "_id" j <> Some (VStr s)
  | _ => is_json k = true -> json_field "_id" j = Some k
  end.
Proof.
  intros [_ Hr] Hk. specialize (Hr "_id"). rewrite Hk in Hr.
  destruct k; try done.
  split; [done |]. split; [apply oid_str_length |]. intros s. by rewrite Hr.
Qed.

(** C5, amended. On a collection whose records all carry a native key,
    every document that a list, get, create or update response carries
    shows a record of the collection field by field, and shows the
    native key of that record under [_id] in its extended-JSON form: a
    key the store client generated as the object [{"$oid": s}], where
    [s] is the string of the 24 hexadecimal digits of the key, which is
    neither the binary form of the store nor a bare string; a key of
    the JSON types, which only a create payload can have supplied, as
    the value itself. *)
Theorem native_key_rendering (w : world) :
  Forall (fun d => is_Some (d !! "_id")) (songs w) ->
  (forall request j w',
     handle_songs request w = (Return (Json j, OK), w') ->
     exists js, j = VObj [("songs", VList js)] /\
                Forall (rendered_from (songs w')) js) /\
  (forall j w',
     get_songs w = (Return (Json j, OK), w') ->
     exists js, j = VList js /\ Forall (rendered_from (songs w')) js) /\
  (forall request id j st w',
     handle_song request id w = (Return (Json j, st), w') ->
     st = OK \/ st = CREATED -> rendered_from (songs w') j) /\
  (forall id j w',
     get_song id w = (Return (Json j, OK), w') ->
     rendered_from (songs w') j) /\
  (forall request id j w',
     update_song_legacy request id w = (Return (Json j, CREATED), w') ->
     rendered_from (songs w') j) /\
  (forall request j w',
     create_song request w = (Return (Json j, CREATED), w') ->
     rendered_from (songs w') j) /\
  (forall d j k,
     renders d j -> d !! "_id" = Some k ->
     match k with
     | VOid o =>
         json_field "_id" j = Some (VObj [("$oid", VStr (oid_str o))]) /\
         String.length (oid_str o) = 24%nat /\
         forall s, json_field "_id" j <> Some (VStr s)
     | _ => is_json k = true -> json_field "_id" j = Some k
     end).
Proof.
  intros Hk. repeat apply conj.
  - intros [m b] j w' H. unfold handle_songs, get_all_songs, create_song in H.
    destruct m; simpl in H; run_inv.
    all: eexists; split; [reflexivity |]; eapply find_renders; eauto.
  - intros j w' H. unfold get_songs in H. run_inv.
    eexists; split; [reflexivity |]. eapply find_renders; eauto.
  - intros [m b] id j st w' H Hst. unfold handle_song in H.
    destruct m; simpl in H; run_inv; try (by destruct Hst).
    1,2: eapply find_one_renders; eauto.
    eapply find_one_and_update_renders; eauto.
  - intros id j w' H. unfold get_song in H. run_inv.
    + eapply find_one_renders; eauto.
    + eapply find_one_renders; eauto.
  - intros [m b] id j w' H. unfold update_song_legacy in H. run_inv.
    + eapply find_one_and_update_renders; eauto.
    + eapply find_one_and_update_renders; eauto.
  - intros [m b] j w' H. unfold create_song in H. run_inv.
    all: repeat
           match goal with
           | H : find_one [("id", _)] _ = _ |- _ =>
               apply find_one_inv in H as [Hs _]; rewrite <- Hs in Hk
           end.
    all: eapply insert_then_find_renders; eauto.
  - apply renders_native_key.
Qed.

Lemma native_key_rendering_witness :
  let d : doc := {["_id" := VOid (Oid 255); "id" := VInt 7]} in
  let w := World [d] 256 [] [] [] in
  rendered_from [d] (parse_json_doc d).
Proof.
  intros d w.
  assert (Hk : Forall (fun d => is_Some (d !! "_id")) (songs w)).
  { repeat constructor. exists (VOid (Oid 255)). vm_compute. reflexivity. }
  destruct (native_key_rendering w Hk) as (_ & _ & H & _).
  apply (H (Request GET None) 7 (parse_json_doc d) OK
           (snd (handle_song (Request GET None) 7 w))).
  - vm_compute. reflexivity.
  - left. reflexivity.
Defined.

(** ** Errors leave the collection alone *)

Lemma find_one_songs (q : query) (w w' : world) (r : result (option doc)) :
  find_one q w = (r, w') -> songs w' = songs w.
Proof. intros H. by apply find_one_inv in H as [? _]. Qed.

Lemma find_songs (q : query) (w w' : world) (r : result (list doc)) :
  find q w = (r, w') -> songs w' = songs w.
Proof. intros H. by apply find_inv in H as [? _]. Qed.

Lemma delete_one_raise (q : query) (w w' : world) (e : exn) :
  delete_one q w = (Raise e, w') -> songs w' = songs w.
Proof. intros H. by apply delete_one_inv in H as [[_ ?] | [? _]]. Qed.

Lemma find_one_and_update_raise (q : query) (set : value) (w w' : world)
    (e : exn) :
  find_one_and_update q set w = (Raise e, w') -> songs w' = songs w.
Proof.
  intros H.
  by apply find_one_and_update_inv in H as [(? & _ & ?) | (? & ? & _ & ? & _)].
Qed.

Lemma insert_one_raise (document : value) (w w' : world) (e : exn) :
  insert_one document w = (Raise e, w') -> songs w' = songs w.
Proof.
  intros H.
  by apply insert_one_inv in H as [(? & _ & ?) | (? & ? & ? & _ & ? & _)].
Qed.

(** The calls of a run that cannot have changed the collection. *)
Ltac frame :=
  repeat
    match goal with
    | H : find_one _ _ = _ |- _ => apply find_one_songs in H
    | H : find _ _ = _ |- _ => apply find_songs in H
    | H : count_documents _ _ = _ |- _ => apply count_documents_inv in H
    | H : delete_one _ _ = (Raise _, _) |- _ => apply delete_one_raise in H
    | H : find_one_and_update _ _ _ = (Raise _, _) |- _ =>
        apply find_one_and_update_raise in H
    | H : insert_one _ _ = (Raise _, _) |- _ => apply insert_one_raise in H
    end.

Ltac open_view :=
  unfold handle_songs, create_song_legacy, create_song, handle_song,
    get_all_songs, get_songs, get_song, update_song_legacy,
    delete_song_legacy, count_songs, health_check in *.

(** C10. Whenever an operation answers bad-request (an empty or
    missing payload on create or update, and the other bad requests of
    the flexible routes as well) or the duplicate-conflict response on
    create, the collection holds exactly the records it held before. *)
Theorem error_leaves_collection (p : path) (request : request)
    (view : M response) (w w' : world) (b : body) (st : HTTPStatus) :
  route p request = Some view ->
  view w = (Return (b, st), w') ->
  st = BAD_REQUEST \/ st = FOUND ->
  songs w' = songs w.
Proof.
  intros Hroute H Hst. destruct request as [m j].
  destruct p, m; simpl in Hroute; simplify_eq; open_view; simpl in H;
    run_inv; try (by destruct Hst); frame; congruence.
Qed.

Lemma error_leaves_collection_witness :
  let d : doc := {["_id" := VOid (Oid 0); "id" := VInt 7]} in
  let w := World [d] 1 [] [] [] in
  songs (snd (create_song (Request POST (Some (VObj [("id", VInt 7)]))) w))
  = [d] /\
  songs (snd (handle_song (Request PUT (Some (VObj []))) 7 w)) = [d].
Proof.
  intros d w. split.
  - apply (error_leaves_collection PathSong
             (Request POST (Some (VObj [("id", VInt 7)])))
             (create_song (Request POST (Some (VObj [("id", VInt 7)]))))
             w _
             (JsonMessage "Message"
                [FLit "song with id "; FVal (VInt 7); FLit " already present"])
             FOUND).
    + reflexivity.
    + vm_compute. reflexivity.
    + right. reflexivity.
  - apply (error_leaves_collection (PathSongId 7)
             (Request PUT (Some (VObj [])))
             (handle_song (Request PUT (Some (VObj []))) 7)
             w _ (message "error" "No input data provided") BAD_REQUEST).
    + reflexivity.
    + vm_compute. reflexivity.
    + left. reflexivity.
Defined.

(** ** Store failures *)

Lemma failed_calls_snoc (cs : list store_call) (op : store_op) {A}
    (r : result A) :
  List.length
    (List.filter (fun c => bool_decide (is_Some (call_raised c)))
       (cs ++ [StoreCall op (raised r)]))
  = (List.length
       (List.filter (fun c => bool_decide (is_Some (call_raised c))) cs)
     + failure_count r)%nat.
Proof.
  rewrite List.filter_app, length_app. f_equal. by destruct r.
Qed.

Lemma db_call_trace {A} (op : store_op) (f : list doc -> result A * list doc)
    (w w' : world) (r : result A) :
  db_call op f w = (r, w') ->
  app_log w' = app_log w /\
  List.length (failed_calls w')
  = (List.length (failed_calls w) + failure_count r)%nat.
Proof.
  intros H. apply db_call_inv in H as (_ & Hl & _ & Hc & _).
  split; [done |]. unfold failed_calls. rewrite Hc. apply failed_calls_snoc.
Qed.

Lemma insert_one_trace (document : value) (w w' : world) (r : result value) :
  insert_one document w = (r, w') ->
  app_log w' = app_log w /\
  List.length (failed_calls w')
  = (List.length (failed_calls w) + failure_count r)%nat.
Proof.
  destruct document as [| | | | | | fs];
    try (intros [= <- <-]; split; [done |]; unfold failed_calls; simpl;
         apply (failed_calls_snoc _ _ (Raise (A := value) TypeError))).
  unfold insert_one. destruct (doc_of_fields fs !! "_id").
  - apply db_call_trace.
  - unfold bind, new_ObjectId. intros H. by apply db_call_trace in H.
Qed.

(** What each store call of a run adds to the log and to the failed
    calls. *)
Ltac trace :=
  repeat
    match goal with
    | H : find_one _ _ = _ |- _ => apply db_call_trace in H as [? ?]
    | H : find _ _ = _ |- _ => apply db_call_trace in H as [? ?]
    | H : count_documents _ _ = _ |- _ => apply db_call_trace in H as [? ?]
    | H : delete_one _ _ = _ |- _ => apply db_call_trace in H as [? ?]
    | H : find_one_and_update _ _ _ = _ |- _ =>
        apply db_call_trace in H as [? ?]
    | H : insert_one _ _ = _ |- _ => apply insert_one_trace in H as [? ?]
    | H : calls ?a = calls ?b |- _ =>
        assert (List.length (failed_calls a) = List.length (failed_calls b))
          by (unfold failed_calls; by rewrite H);
        clear H
    end;
  unfold store_failed, failure_count in *.

Ltac log_eq :=
  repeat
    match goal with
    | H : app_log _ = _ |- _ => rewrite H; clear H
    end;
  reflexivity.

Ltac settle :=
  first
    [ lia
    | eexists; split; [reflexivity | log_eq]
    | split; [reflexivity | log_eq] ].

(** GET /songs/7 when the store cannot be reached: the failure comes
    back as a bad request, not as an internal error. *)
Lemma flexible_get_store_failure :
  let w := World [] 0 [true] [] [] in
  fst (get_song "7" w)
  = Return (message "error" "Invalid song ID", BAD_REQUEST) /\
  calls (snd (get_song "7" w))
  = [StoreCall (OpFindOne [("id", VInt 7)]) (Some PyMongoError)] /\
  store_failed w (snd (get_song "7" w)) /\
  status_code BAD_REQUEST <> status_code INTERNAL_SERVER_ERROR.
Proof.
  split; [vm_compute; reflexivity |]. split; [vm_compute; reflexivity |].
  split; [vm_compute; lia | discriminate].
Qed.

(** The branch of [handle_song] for GET has no [try]: a store failure
    leaves the view as an exception. *)
Lemma handle_song_get_unguarded (w : world) (j : option value) (id : Z)
    (fs : list bool) :
  faults w = true :: fs ->
  fst (handle_song (Request GET j) id w) = Raise PyMongoError.
Proof.
  intros H. unfold handle_song, bind, find_one; simpl.
  by rewrite (db_call_failing _ _ _ fs H).
Qed.

(** C6, amended. When a store call of the request raises: count, both
    lists, create, update and delete by numeric id, and update and
    delete by a flexible id made of digits answer the internal error
    with a one-field [error] body and log one message that carries the
    exception; GET with a flexible id made of digits answers bad-request
    and logs the message; with any other flexible id the inner handler
    absorbs the failure without a log entry, and GET and DELETE answer
    not-found while PUT answers bad-request. *)
Theorem store_failure_responses (w w' : world) (r : result response) :
  store_failed w w' ->
  let internal_error := fun prefix text =>
    exists e,
      r = Return (message "error" text, INTERNAL_SERVER_ERROR) /\
      app_log w' = app_log w ++ [[FLit prefix; FExn e]] in
  (count_songs w = (r, w') ->
   internal_error "Error counting songs: " "Internal server error") /\
  (get_all_songs w = (r, w') ->
   internal_error "Error fetching songs: " "Internal server error") /\
  (get_songs w = (r, w') ->
   internal_error "Error fetching songs: " "Internal server error") /\
  (forall request,
     create_song request w = (r, w') ->
     internal_error "Error creating song: " "Failed to create song") /\
  (forall request id,
     method request = PUT -> handle_song request id w = (r, w') ->
     internal_error "Error updating song: " "Failed to update song") /\
  (forall request id,
     method request = DELETE -> handle_song request id w = (r, w') ->
     internal_error "Error deleting song: " "Failed to delete song") /\
  (forall request id,
     isdigit id = true -> update_song_legacy request id w = (r, w') ->
     internal_error "Error updating song: " "Failed to update song") /\
  (forall id,
     isdigit id = true -> delete_song_legacy id w = (r, w') ->
     internal_error "Error deleting song: " "Failed to delete song") /\
  (forall id,
     isdigit id = true -> get_song id w = (r, w') ->
     exists e,
       r = Return (message "error" "Invalid song ID", BAD_REQUEST) /\
       app_log w' = app_log w ++
         [[FLit "Invalid song ID: "; FLit id; FLit ", error: "; FExn e]]) /\
  (forall id,
     isdigit id = false -> get_song id w = (r, w') ->
     r = Return (message "message" "Song not found", NOT_FOUND) /\
     app_log w' = app_log w) /\
  (forall request id,
     isdigit id = false -> update_song_legacy request id w = (r, w') ->
     r = Return (message "error" "Invalid song ID format", BAD_REQUEST) /\
     app_log w' = app_log w) /\
  (forall id,
     isdigit id = false -> delete_song_legacy id w = (r, w') ->
     r = Return (message "message" "Song not found", NOT_FOUND) /\
     app_log w' = app_log w).
Proof.
  intros Hf internal_error. subst internal_error.
  repeat apply conj.
  - intros H. open_view. run_inv; trace; settle.
  - intros H. open_view. run_inv; trace; settle.
  - intros H. open_view. run_inv; trace; settle.
  - intros [m j] H. open_view. run_inv; trace; settle.
  - intros [m j] id Hm H. simpl in Hm; subst m. open_view. simpl in H.
    run_inv; trace; settle.
  - intros [m j] id Hm H. simpl in Hm; subst m. open_view. simpl in H.
    run_inv; trace; settle.
  - intros [m j] id Hd H. open_view. rewrite Hd in H.
    run_inv; trace; settle.
  - intros id Hd H. open_view. rewrite Hd in H. run_inv; trace; settle.
  - intros id Hd H. open_view. rewrite Hd in H. run_inv; trace; settle.
  - intros id Hd H. open_view. rewrite Hd in H. run_inv; trace; settle.
  - intros [m j] id Hd H. open_view. rewrite Hd in H.
    run_inv; trace; settle.
  - intros id Hd H. open_view. rewrite Hd in H. run_inv; trace; settle.
Qed.

Lemma store_failure_responses_witness :
  let w := World [] 0 [true] [] [] in
  exists e,
    fst (count_songs w)
    = Return (message "error" "Internal server error", INTERNAL_SERVER_ERROR) /\
    app_log (snd (count_songs w))
    = app_log w ++ [[FLit "Error counting songs: "; FExn e]].
Proof.
  intros w.
  assert (Hf : store_failed w (snd (count_songs w))) by (vm_compute; lia).
  destruct (store_failure_responses w (snd (count_songs w))
              (fst (count_songs w)) Hf) as [H _].
  apply H. apply surjective_pairing.
Defined.

(** ** Create without an id *)


(** The key the generator gives next is in no record. *)
Lemma generator_fresh (w : world) :
  generator_ahead w ->
  Forall (fun x => x !! "_id" <> Some (VOid (Oid (next_oid w mod 2 ^ 96)%N)))
    (songs w).
Proof.
  intros [Hn Hg]. eapply Forall_impl; [exact Hg |].
  intros x Hx Hk. rewrite N.mod_small in Hk by exact Hn.
  specialize (Hx _ Hk). simpl in Hx. lia.
Qed.

(** The record a create inserts and the key it gets: the payload's
    [_id], or the next key of the generator. *)
Lemma new_key_free (w : world) (fs : list (string * value)) :
  let k := match doc_of_fields fs !! "_id" with
           | Some k => k
           | None => VOid (Oid (next_oid w mod 2 ^ 96)%N)
           end in
  generator_ahead w ->
  (forall k', doc_of_fields fs !! "_id" = Some k' ->
     is_array k' = false /\ Forall (fun x => x !! "_id" <> Some k') (songs w)) ->
  is_array k = false /\ Forall (fun x => x !! "_id" <> Some k) (songs w).
Proof.
  intros k Hg Hp. subst k. destruct (doc_of_fields fs !! "_id") as [k' |].
  - by apply Hp.
  - split; [done | by apply generator_fresh].
Qed.




(** Two creates of the same payload without an [id], on the empty
    collection: both records are in the collection afterwards. *)
Lemma two_records_without_id :
  let request := Request POST (Some (VObj [("title", VStr "A")])) in
  let w1 := snd (create_song request (World [] 0 [] [] [])) in
  let w2 := snd (create_song request w1) in
  List.map (fun d => (d !! "id", d !! "title")) (songs w2)
  = [(None, Some (VStr "A")); (None, Some (VStr "A"))].
Proof. vm_compute. reflexivity. Qed.

(** ** Ids are compared with their type *)





(** ** Flexible ids *)

Lemma isdecimal_isdigit (id : string) : isdecimal id = true -> isdigit id = true.
Proof.
  unfold isdecimal, isdigit. destruct (list_ascii_of_string id) as [| c cs]; [done |].
  generalize (c :: cs). intros l H. apply forallb_forall. intros x Hx.
  rewrite forallb_forall in H. unfold is_digit_char. by rewrite (H x Hx).
Qed.

(** [int] converts the strings of at most [max_str_digits] decimal
    digits, and no other. *)
Lemma py_int_Some (s : string) (n : Z) :
  py_int s = Some n ->
  isdecimal s = true /\ (String.length s <= max_str_digits)%nat.
Proof.
  unfold py_int. destruct (isdecimal s); [| done].
  destruct (Nat.leb_spec (String.length s) max_str_digits); [done | done].
Qed.

Lemma py_int_decimal (s : string) :
  isdecimal s = true -> (String.length s <= max_str_digits)%nat ->
  exists n, py_int s = Some n.
Proof.
  intros Hs Hl. unfold py_int. rewrite Hs.
  apply Nat.leb_le in Hl. rewrite Hl. eauto.
Qed.

(** An all-decimal segment of at most [max_str_digits] digits is looked
    up as the integer it denotes, in the [id] field. *)
Lemma flexible_id_decimal (w : world) (id : string) :
  faults w = [] -> isdecimal id = true ->
  (String.length id <= max_str_digits)%nat ->
  exists n,
    py_int id = Some n /\
    let song := List.find (matches [("id", VInt n)]) (songs w) in
    fst (get_song id w)
    = Return (if found song then (Json (parse_json song), OK)
              else (message "message" "Song not found", NOT_FOUND)) /\
    fst (delete_song_legacy id w)
    = Return (if fst (store_delete [("id", VInt n)] (songs w)) =? 0
              then (message "message" "Song not found", NOT_FOUND)
              else (Text "", NO_CONTENT)).
Proof.
  intros Hw Hdec Hlen. pose proof (isdecimal_isdigit id Hdec) as Hdig.
  destruct (py_int_decimal id Hdec Hlen) as [n Hn].
  exists n. split; [done |].
  destruct w as [c i fl cs lg]; simpl in *; subst fl.
  split.
  - handler. rewrite Hdig, Hn. handler. by destruct (found _).
  - handler. rewrite Hdig, Hn. handler.
    destruct (store_delete _ c) as [k c']. handler. by destruct (k =? 0).
Qed.

(** Any other segment that is a native key is looked up in [_id]. *)
Lemma flexible_id_native_key (w : world) (id : string) (o : ObjectId) :
  faults w = [] -> isdigit id = false -> ObjectId_of_str id = Some o ->
  let song := List.find (matches [("_id", VOid o)]) (songs w) in
  fst (get_song id w)
  = Return (if found song then (Json (parse_json song), OK)
            else (message "message" "Song not found", NOT_FOUND)) /\
  fst (delete_song_legacy id w)
  = Return (if fst (store_delete [("_id", VOid o)] (songs w)) =? 0
            then (message "message" "Song not found", NOT_FOUND)
            else (Text "", NO_CONTENT)).
Proof.
  intros Hw Hdig Ho.
  destruct w as [c n fl cs lg]; simpl in *; subst fl.
  split.
  - handler. rewrite Hdig, Ho. handler. by destruct (found _).
  - handler. rewrite Hdig, Ho. handler.
    destruct (store_delete _ c) as [k c']. handler. by destruct (k =? 0).
Qed.

(** A segment that is neither: GET and DELETE answer not-found and PUT
    with a payload answers bad-request, without a store call. *)
Lemma flexible_id_unparsable (w : world) (id : string) :
  isdigit id = false -> ObjectId_of_str id = None ->
  get_song id w
  = (Return (message "message" "Song not found", NOT_FOUND), w) /\
  delete_song_legacy id w
  = (Return (message "message" "Song not found", NOT_FOUND), w) /\
  forall m v,
    truthy v = true ->
    update_song_legacy (Request m (Some v)) id w
    = (Return (message "error" "Invalid song ID format", BAD_REQUEST), w).
Proof.
  intros Hdig Ho. repeat split.
  - handler. rewrite Hdig, Ho. by handler.
  - handler. rewrite Hdig, Ho. by handler.
  - intros m v Hv. handler. rewrite Hv, Hdig, Ho. by handler.
Qed.

(** C1, at the segment made of the one character U+00B2 (superscript
    two). [isdigit] accepts it, so the segment is not taken for a native
    key although it is no decimal number, and [int] raises: GET answers
    bad-request where the rule says not-found, and PUT and DELETE answer
    the internal error where the rule says bad-request and not-found. *)
Theorem flexible_id_superscript_digit (w : world) :
  let id := String "178"%char "" in
  let request := Request PUT (Some (VObj [("title", VStr "C")])) in
  isdigit id = true /\ isdecimal id = false /\ ObjectId_of_str id = None /\
  fst (get_song id w)
  = Return (message "error" "Invalid song ID", BAD_REQUEST) /\
  fst (update_song_legacy request id w)
  = Return (message "error" "Failed to update song", INTERNAL_SERVER_ERROR) /\
  fst (delete_song_legacy id w)
  = Return (message "error" "Failed to delete song", INTERNAL_SERVER_ERROR) /\
  calls (snd (get_song id w)) = calls w.
Proof. repeat split. Qed.

(** * Further properties of the handlers *)

(** ** Rendering *)

(** [parse_json] returns a value of the JSON types as it is: apart from
    the [ObjectId]s, a record comes back as it is stored. *)
Theorem parse_json_value_json (v : value) :
  is_json v = true -> parse_json_value v = v.
Proof.
  induction v as [| b | n | s | o | l IH | fs IH] using value_nested_ind;
    simpl; try done.
  - intros H. f_equal. induction IH as [| x l Hx _ IHl]; simpl in *; [done |].
    apply andb_true_iff in H as [H1 H2]. by rewrite Hx, IHl.
  - intros H. f_equal.
    induction IH as [| [k x] fs Hx _ IHfs]; simpl in *; [done |].
    apply andb_true_iff in H as [H1 H2]. by rewrite Hx, IHfs.
Qed.

Lemma parse_json_value_json_witness :
  parse_json_value (VObj [("title", VStr "A"); ("tags", VList [VInt 1; VNull])])
  = VObj [("title", VStr "A"); ("tags", VList [VInt 1; VNull])].
Proof. apply parse_json_value_json. reflexivity. Defined.

(** What [parse_json] returns holds no [ObjectId], however deep the
    [ObjectId]s of the argument are nested. *)
Theorem parse_json_value_is_json (v : value) :
  is_json (parse_json_value v) = true.
Proof.
  induction v as [| b | n | s | o | l IH | fs IH] using value_nested_ind;
    simpl; try done.
  - induction IH as [| x l Hx _ IHl]; simpl; [done |]. by rewrite Hx, IHl.
  - induction IH as [| [k x] fs Hx _ IHfs]; simpl in *; [done |].
    by rewrite Hx, IHfs.
Qed.

(** ** Counting *)

(** GET /count answers 200 with the number of records of the
    collection, and leaves the collection alone. *)
Theorem count_songs_counts (w : world) :
  faults w = [] ->
  exists w',
    count_songs w
    = (Return (Json (VObj [("count",
                            VInt (Z.of_nat (List.length (songs w))))]),
               OK), w') /\
    songs w' = songs w.
Proof.
  intros Hw. destruct w as [c n fl cs lg]; simpl in *; subst fl.
  handler. rewrite filter_all. eauto.
Qed.

Lemma count_songs_counts_witness :
  let d : doc := {["_id" := VOid (Oid 0); "id" := VInt 7]} in
  exists w',
    count_songs (World [d; d] 1 [] [] [])
    = (Return (Json (VObj [("count", VInt 2)]), OK), w') /\
    songs w' = [d; d].
Proof.
  intros d. apply (count_songs_counts (World [d; d] 1 [] [] [])). reflexivity.
Defined.

(** ** Payloads *)

(** A payload whose truth value is false, [null], [{}], [[]], [0],
    [""] or [false], is rejected with bad-request by create and by both
    updates before any store call: the world is as it was. *)
Theorem empty_payload_rejected (w : world) (m : http_method) (v : value)
    (id : Z) (s : string) :
  truthy v = false ->
  let rejected :=
    (Return (message "error" "No input data provided", BAD_REQUEST), w) in
  create_song (Request m (Some v)) w = rejected /\
  handle_song (Request PUT (Some v)) id w = rejected /\
  update_song_legacy (Request m (Some v)) s w = rejected.
Proof.
  intros Hv rejected. subst rejected. repeat split; handler; by rewrite Hv.
Qed.

Lemma empty_payload_rejected_witness :
  let w := World [] 0 [true] [] [] in
  create_song (Request POST (Some (VObj []))) w
  = (Return (message "error" "No input data provided", BAD_REQUEST), w).
Proof.
  intros w.
  exact (proj1 (empty_payload_rejected w POST (VObj []) 0 "" eq_refl)).
Defined.

(** A body that is not JSON makes [get_json] raise inside the [try]: create
    and both updates answer the internal error, not bad-request, log the
    exception and make no store call. *)
Theorem unparsable_body_is_internal_error (w : world) (m : http_method)
    (id : Z) (s : string) :
  let failed := fun prefix text =>
    (Return (message "error" text, INTERNAL_SERVER_ERROR),
     World (songs w) (next_oid w) (faults w) (calls w)
       (app_log w ++ [[FLit prefix; FExn BadRequest]])) in
  create_song (Request m None) w
  = failed "Error creating song: " "Failed to create song" /\
  handle_song (Request PUT None) id w
  = failed "Error updating song: " "Failed to update song" /\
  update_song_legacy (Request m None) s w
  = failed "Error updating song: " "Failed to update song".
Proof. repeat split. Qed.

(** A payload that is not a JSON object, an array, a string, a number
    or [true], is never stored: whatever the route, the collection stays
    as it was and the answer is not 201. *)
Theorem non_object_payload_not_stored (p : path) (request : request)
    (view : M response) (w w' : world) (r : result response) (v : value) :
  route p request = Some view ->
  method request = POST \/ method request = PUT ->
  json request = Some v -> (forall fs, v <> VObj fs) ->
  view w = (r, w') ->
  songs w' = songs w /\ status_of r <> Some CREATED.
Proof.
  intros Hroute Hm Hj Hv H. destruct request as [m j]. simpl in Hj, Hm. subst j.
  destruct p, m; simpl in Hroute; simplify_eq; try (by destruct Hm);
    open_view; simpl in H; run_inv;
    repeat
      match goal with
      | H : insert_one _ _ = _ |- _ =>
          apply insert_one_inv in H
            as [(? & ? & ?) | (? & ? & ? & ? & _)]; simplify_eq
      | H : find_one_and_update _ _ _ = _ |- _ =>
          apply find_one_and_update_inv in H
            as [(? & ? & ?) | (? & ? & ? & _)]; simplify_eq
      | H : forall fs, VObj _ <> VObj fs |- _ =>
          exfalso; eapply H; reflexivity
      end;
    frame; (split; [congruence | done]).
Qed.

Lemma non_object_payload_not_stored_witness :
  let w := World [] 0 [] [] [] in
  let request := Request POST (Some (VList [VStr "id"])) in
  songs (snd (create_song request w)) = [] /\
  status_of (fst (create_song request w)) <> Some CREATED.
Proof.
  intros w request.
  apply (non_object_payload_not_stored PathSong request
           (create_song request) w _ _ (VList [VStr "id"])).
  - reflexivity.
  - left. reflexivity.
  - reflexivity.
  - discriminate.
  - apply surjective_pairing.
Defined.

(** ** What a request can do to the collection *)

(** A GET never changes the collection, whatever the route, whether the
    store answers or not, and also when the view raises. *)
Theorem get_is_read_only (p : path) (request : request) (view : M response)
    (w w' : world) (r : result response) :
  route p request = Some view -> method request = GET ->
  view w = (r, w') ->
  songs w' = songs w.
Proof.
  intros Hroute Hm H. destruct request as [m j]. simpl in Hm. subst m.
  destruct p; simpl in Hroute; simplify_eq; open_view; simpl in H;
    run_inv; frame; congruence.
Qed.

Lemma get_is_read_only_witness :
  let d : doc := {["_id" := VOid (Oid 0); "id" := VInt 7]} in
  let w := World [d] 1 [true] [] [] in
  songs (snd (handle_song (Request GET None) 7 w)) = [d].
Proof.
  intros d w.
  apply (get_is_read_only (PathSongId 7) (Request GET None)
           (handle_song (Request GET None) 7) w _
           (fst (handle_song (Request GET None) 7 w))).
  - reflexivity.
  - reflexivity.
  - apply surjective_pairing.
Defined.

Lemma store_delete_cases (q : query) (c : list doc) :
  (store_delete q c = (0, c) /\ unmatched q c)
  \/ (exists c', store_delete q c = (1, c') /\ removed_first q c c').
Proof.
  destruct (List.find (matches q) c) as [d |] eqn:Hf.
  - right. destruct (find_split _ _ _ Hf) as (l1 & l2 & -> & Hl1 & Hd).
    exists (l1 ++ l2). split; [by apply store_delete_first |].
    by exists l1, d, l2.
  - left. apply find_unmatched_inv in Hf. split; [| done].
    by apply store_delete_unmatched.
Qed.

Lemma delete_one_cases (q : query) (w w' : world) (r : result Z) :
  delete_one q w = (r, w') ->
  (r = Raise PyMongoError /\ songs w' = songs w)
  \/ (r = Return 0 /\ songs w' = songs w)
  \/ (r = Return 1 /\ removed_first q (songs w) (songs w')).
Proof.
  intros H. apply delete_one_inv in H as [? | [-> ->]]; [by left | right].
  destruct (store_delete_cases q (songs w)) as [[-> _] | (c' & -> & ?)];
    [by left | by right].
Qed.

(** DELETE /song/<id> answers 204 exactly when it removed a record, and
    then it removed the first record that matches the id and no other;
    with any other answer the collection is as it was. *)
Theorem delete_removes_first_match (w w' : world) (j : option value) (id : Z)
    (b : body) (st : HTTPStatus) :
  handle_song (Request DELETE j) id w = (Return (b, st), w') ->
  (st = NO_CONTENT /\ removed_first [("id", VInt id)] (songs w) (songs w'))
  \/ (st <> NO_CONTENT /\ songs w' = songs w).
Proof.
  intros H. open_view. simpl in H. run_inv;
    match goal with
    | H : delete_one _ _ = _ |- _ =>
        apply delete_one_cases in H as [[? ?] | [[? ?] | [? ?]]]
    end; simplify_eq; try (left; by split); right; split; congruence.
Qed.

Lemma delete_removes_first_match_witness :
  let d7 : doc := {["_id" := VOid (Oid 0); "id" := VInt 7]} in
  let d8 : doc := {["_id" := VOid (Oid 1); "id" := VInt 8]} in
  removed_first [("id", VInt 8)] [d7; d8; d8]
    (songs (snd (handle_song (Request DELETE None) 8
                   (World [d7; d8; d8] 2 [] [] [])))).
Proof.
  intros d7 d8.
  destruct (delete_removes_first_match (World [d7; d8; d8] 2 [] [] [])
              (snd (handle_song (Request DELETE None) 8
                      (World [d7; d8; d8] 2 [] [] [])))
              None 8 (Text "") NO_CONTENT) as [[_ H] | [H _]].
  - vm_compute. reflexivity.
  - exact H.
  - by destruct H.
Defined.

(** DELETE /songs/<id> likewise, for the query the segment resolves to:
    the [id] of an all-digit segment, the native key otherwise. *)
Theorem delete_legacy_removes_first_match (w w' : world) (id : string)
    (b : body) (st : HTTPStatus) :
  delete_song_legacy id w = (Return (b, st), w') ->
  (st = NO_CONTENT /\
   exists q,
     removed_first q (songs w) (songs w') /\
     if isdigit id then exists n, py_int id = Some n /\ q = [("id", VInt n)]
     else exists o, ObjectId_of_str id = Some o /\ q = [("_id", VOid o)])
  \/ (st <> NO_CONTENT /\ songs w' = songs w).
Proof.
  intros H. open_view. run_inv;
    repeat
      match goal with
      | H : delete_one _ _ = _ |- _ =>
          apply delete_one_cases in H as [[? ?] | [[? ?] | [? ?]]]
      end; simplify_eq;
    try (right; split; congruence).
  all: left; split; [done |]; eexists; split; [eassumption | eauto].
Qed.

Lemma delete_legacy_removes_first_match_witness :
  let d7 : doc := {["_id" := VOid (Oid 10); "id" := VInt 7]} in
  let w := World [d7] 11 [] [] [] in
  let id := "00000000000000000000000a" in
  let w' := snd (delete_song_legacy id w) in
  (NO_CONTENT = NO_CONTENT /\
   exists q,
     removed_first q (songs w) (songs w') /\
     if isdigit id then exists n, py_int id = Some n /\ q = [("id", VInt n)]
     else exists o, ObjectId_of_str id = Some o /\ q = [("_id", VOid o)])
  \/ (NO_CONTENT <> NO_CONTENT /\ songs w' = songs w).
Proof.
  intros d7 w id w'.
  apply (delete_legacy_removes_first_match w w' id (Text "")).
  vm_compute. reflexivity.
Defined.

Lemma store_update_length (q : query) (upd : doc) (c c' : list doc)
    (r : result (option doc)) :
  store_update q upd c = (r, c') -> List.length c' = List.length c.
Proof.
  destruct (store_update_cases q upd c)
    as [[_ ->] | (l1 & d & l2 & -> & _ & _ & [[_ ->] | [_ ->]])];
    intros [= <- <-]; try done.
  rewrite !length_app. done.
Qed.

Lemma removed_first_length (q : query) (c c' : list doc) :
  removed_first q c c' -> S (List.length c') = List.length c.
Proof.
  intros (l1 & d & l2 & -> & _ & _ & ->). rewrite !length_app. simpl. lia.
Qed.

(** The number of records after a request, by its method: a GET and a
    PUT keep it, a DELETE keeps it or takes one record away, a POST
    keeps it or adds one record, whatever the store does. *)
Theorem record_count_by_method (p : path) (request : request)
    (view : M response) (w w' : world) (r : result response) :
  route p request = Some view -> view w = (r, w') ->
  let before := List.length (songs w) in
  let after := List.length (songs w') in
  match method request with
  | GET | PUT => after = before
  | DELETE => after = before \/ S after = before
  | POST => after = before \/ after = S before
  end.
Proof.
  intros Hroute H. destruct request as [m j].
  destruct p, m; simpl in Hroute; simplify_eq; open_view; simpl in H;
    simpl; run_inv;
    repeat
      match goal with
      | H : delete_one _ _ = _ |- _ =>
          apply delete_one_cases in H as [[? ?] | [[? ?] | [? ?]]]
      | H : removed_first _ _ _ |- _ => apply removed_first_length in H
      | H : find_one_and_update _ _ _ = (Return _, _) |- _ =>
          apply find_one_and_update_inv in H
            as [(? & ? & ?) | (? & ? & _ & _ & H)];
          [| apply store_update_length in H]
      | H : insert_one _ _ = (Return _, _) |- _ =>
          apply insert_one_inv in H
            as [(? & ? & ?) | (? & ? & ? & _ & _ & H & _)];
          [| apply (f_equal (@List.length doc)) in H;
             rewrite length_app in H; simpl in H]
      end; simplify_eq; frame;
    repeat
      match goal with
      | H : songs _ = songs _ |- _ =>
          apply (f_equal (@List.length doc)) in H
      end;
    lia.
Qed.

Lemma record_count_by_method_witness :
  let d : doc := {["_id" := VOid (Oid 0); "id" := VInt 7]} in
  let w := World [d] 1 [] [] [] in
  let request := Request PUT (Some (VObj [("title", VStr "C")])) in
  List.length (songs (snd (handle_song request 7 w))) = 1%nat.
Proof.
  intros d w request.
  apply (record_count_by_method (PathSongId 7) request
           (handle_song request 7) w _ (fst (handle_song request 7 w))).
  - reflexivity.
  - apply surjective_pairing.
Defined.

(** ** Logging and store calls *)

Lemma db_call_accounts {A} (op : store_op)
    (f : list doc -> result A * list doc) (w w' : world) (r : result A) :
  db_call op f w = (r, w') ->
  app_log w' = app_log w /\
  List.length (calls w') = S (List.length (calls w)).
Proof.
  intros H. apply db_call_inv in H as (_ & Hl & _ & Hc & _).
  split; [done |]. rewrite Hc, length_app. simpl. lia.
Qed.

Lemma insert_one_accounts (document : value) (w w' : world)
    (r : result value) :
  insert_one document w = (r, w') ->
  app_log w' = app_log w /\
  List.length (calls w') = S (List.length (calls w)).
Proof.
  destruct document as [| | | | | | fs];
    try (intros [= <- <-]; simpl; rewrite length_app; simpl; split; [done | lia]).
  unfold insert_one. destruct (doc_of_fields fs !! "_id").
  - apply db_call_accounts.
  - unfold bind, new_ObjectId. intros H. by apply db_call_accounts in H.
Qed.

(** What each store call of a run adds to the log and to the calls. *)
Ltac accounts :=
  repeat
    match goal with
    | H : find_one _ _ = _ |- _ => apply db_call_accounts in H as [? ?]
    | H : find _ _ = _ |- _ => apply db_call_accounts in H as [? ?]
    | H : count_documents _ _ = _ |- _ => apply db_call_accounts in H as [? ?]
    | H : delete_one _ _ = _ |- _ => apply db_call_accounts in H as [? ?]
    | H : find_one_and_update _ _ _ = _ |- _ =>
        apply db_call_accounts in H as [? ?]
    | H : insert_one _ _ = _ |- _ => apply insert_one_accounts in H as [? ?]
    | H : calls ?a = calls ?b |- _ =>
        apply (f_equal (@List.length store_call)) in H
    end.

(** A response is logged exactly when it is the internal error, or the
    bad request of GET /songs/<id>: then the log grows by one message,
    and with every other response it is as it was. *)
Theorem log_discipline (p : path) (request : request) (view : M response)
    (w w' : world) (b : body) (st : HTTPStatus) :
  route p request = Some view -> view w = (Return (b, st), w') ->
  match st, p, method request with
  | INTERNAL_SERVER_ERROR, _, _ => logged_once w w'
  | BAD_REQUEST, PathSongsId _, GET => logged_once w w'
  | _, _, _ => app_log w' = app_log w
  end.
Proof.
  intros Hroute H. destruct request as [m j].
  destruct p, m; simpl in Hroute; simplify_eq; open_view; simpl in H;
    simpl; run_inv; accounts;
    first [ log_eq | eexists; log_eq ].
Qed.

Lemma log_discipline_witness :
  let w := World [] 0 [true] [] [] in
  logged_once w (snd (get_song "7" w)).
Proof.
  intros w.
  apply (log_discipline (PathSongsId "7") (Request GET None) (get_song "7")
           w _ (message "error" "Invalid song ID") BAD_REQUEST).
  - reflexivity.
  - vm_compute. reflexivity.
Defined.

(** A request makes at most one store call, and a POST at most three:
    the duplicate check, the insert and the lookup of the inserted
    record. *)
Theorem store_call_budget (p : path) (request : request) (view : M response)
    (w w' : world) (r : result response) :
  route p request = Some view -> view w = (r, w') ->
  (List.length (calls w')
   <= List.length (calls w)
      + match method request with
        | POST => 3
        | _ => 1
        end)%nat.
Proof.
  intros Hroute H. destruct request as [m j].
  destruct p, m; simpl in Hroute; simplify_eq; open_view; simpl in H;
    simpl; run_inv; accounts; lia.
Qed.

Lemma store_call_budget_witness :
  let request := Request POST (Some (VObj [("id", VInt 7)])) in
  let w := World [] 0 [] [] [] in
  (List.length (calls (snd (create_song request w))) <= 0 + 3)%nat.
Proof.
  intros request w.
  apply (store_call_budget PathSong request (create_song request) w _
           (fst (create_song request w))).
  - reflexivity.
  - apply surjective_pairing.
Defined.

Lemma handle_song_get_unguarded_witness :
  fst (handle_song (Request GET None) 7 (World [] 0 [true] [] []))
  = Raise PyMongoError.
Proof.
  apply (handle_song_get_unguarded (World [] 0 [true] [] []) None 7 []).
  reflexivity.
Defined.

(** ** The flexible routes on decimal ids *)

(** PUT /songs/<id> with an all-decimal segment is PUT /song/<n> for the
    number [n] the segment denotes: same response, same log, same calls,
    same collection, whatever the store does. DELETE agrees in the
    status and in everything it does; only the text of its not-found
    message differs. *)
Theorem legacy_decimal_is_numeric (w : world) (m : http_method)
    (j : option value) (s : string) (n : Z) :
  isdigit s = true -> py_int s = Some n ->
  update_song_legacy (Request m j) s w = handle_song (Request PUT j) n w /\
  snd (delete_song_legacy s w) = snd (handle_song (Request DELETE j) n w) /\
  status_of (fst (delete_song_legacy s w))
  = status_of (fst (handle_song (Request DELETE j) n w)).
Proof.
  intros Hs Hn. repeat split.
  - open_view. unfold try_except, bind, get_json, int, ret. simpl.
    rewrite Hs, Hn. destruct j as [v |]; [| done].
    destruct (truthy v); [| done]. simpl.
    destruct (find_one_and_update _ _ w) as [[a | e] w1]; [| done].
    by destruct (found a).
  - open_view. unfold try_except, bind, int, ret. simpl. rewrite Hs, Hn.
    destruct (delete_one _ w) as [[k | e] w1]; [| done].
    by destruct (k =? 0).
  - open_view. unfold try_except, bind, int, ret. simpl. rewrite Hs, Hn.
    destruct (delete_one _ w) as [[k | e] w1]; [| done].
    by destruct (k =? 0).
Qed.

Lemma legacy_decimal_is_numeric_witness :
  let d : doc := {["_id" := VOid (Oid 0); "id" := VInt 42]} in
  let w := World [d] 1 [] [] [] in
  let j := Some (VObj [("title", VStr "C")]) in
  update_song_legacy (Request PUT j) "42" w = handle_song (Request PUT j) 42 w.
Proof.
  intros d w j.
  apply (legacy_decimal_is_numeric w PUT j "42" 42); reflexivity.
Defined.

Lemma py_int_leading_zero (s : string) :
  isdecimal s = true -> (String.length s < max_str_digits)%nat ->
  py_int (String "0" s) = py_int s.
Proof.
  intros Hs Hl. unfold py_int. rewrite Hs.
  assert (H0 : isdecimal (String "0" s) = true).
  { unfold isdecimal in *. simpl.
    destruct (list_ascii_of_string s); [done |]. exact Hs. }
  rewrite H0.
  assert (H1 : (String.length s <=? max_str_digits)%nat = true)
    by (apply Nat.leb_le; lia).
  assert (H2 : (String.length (String "0" s) <=? max_str_digits)%nat = true)
    by (apply Nat.leb_le; simpl; lia).
  rewrite H1, H2. reflexivity.
Qed.

(** [int] drops leading zeros, so /songs/007 is /songs/7 as long as the
    longer segment is within the [max_str_digits] digits that [int]
    converts: GET answers the same, and PUT and DELETE do the same in
    every respect. *)
Theorem leading_zero_same_record (w : world) (request : request)
    (s : string) :
  isdecimal s = true -> (String.length s < max_str_digits)%nat ->
  fst (get_song (String "0" s) w) = fst (get_song s w) /\
  update_song_legacy request (String "0" s) w
  = update_song_legacy request s w /\
  delete_song_legacy (String "0" s) w = delete_song_legacy s w.
Proof.
  intros Hs Hl.
  pose proof (py_int_leading_zero s Hs Hl) as Hz.
  assert (Hd : isdigit s = true) by by apply isdecimal_isdigit.
  assert (Hd0 : isdigit (String "0" s) = true).
  { apply isdecimal_isdigit. unfold isdecimal in *. simpl.
    destruct (list_ascii_of_string s); [done |]. exact Hs. }
  destruct (py_int_decimal s Hs) as [n Hn]; [lia |].
  rewrite Hn in Hz.
  repeat split.
  - open_view. unfold try_except, bind, int. rewrite Hd, Hd0, Hz, Hn.
    unfold ret. destruct (find_one _ w) as [[a | e] w1]; [| done].
    by destruct (found a).
  - open_view. unfold try_except, bind, int. by rewrite Hd, Hd0, Hz, Hn.
  - open_view. unfold try_except, bind, int. by rewrite Hd, Hd0, Hz, Hn.
Qed.

Lemma leading_zero_same_record_witness :
  let d : doc := {["_id" := VOid (Oid 0); "id" := VInt 7]} in
  let w := World [d] 1 [] [] [] in
  fst (get_song "007" w) = fst (get_song "07" w).
Proof.
  intros d w.
  assert (Hl : (String.length "07" < max_str_digits)%nat)
    by (vm_compute; lia).
  exact (proj1 (leading_zero_same_record w (Request GET None) "07" eq_refl Hl)).
Defined.

(** ** Native keys as path segments *)

Lemma hex_value_hex_char (d : N) :
  (d < 16)%N -> hex_value (hex_char d) = Some d.
Proof.
  intros H.
  assert (Hd : In d (List.map N.of_nat (seq 0 16))).
  { apply in_map_iff. exists (N.to_nat d). split; [lia |].
    apply in_seq. lia. }
  simpl in Hd.
  repeat (destruct Hd as [<- | Hd]; [reflexivity |]). destruct Hd.
Qed.

Lemma hex_fold_hex_digits (k : nat) (n a : N) (acc : string) :
  hex_fold a (list_ascii_of_string (hex_digits k n acc))
  = hex_fold (a * 16 ^ N.of_nat k + n mod 16 ^ N.of_nat k)%N
      (list_ascii_of_string acc).
Proof.
  revert n a acc. induction k as [| k IH]; intros n a acc.
  - cbn [hex_digits]. f_equal. change (N.of_nat 0) with 0%N.
    rewrite N.pow_0_r, N.mod_1_r. lia.
  - cbn [hex_digits]. rewrite IH. cbn [list_ascii_of_string hex_fold].
    rewrite hex_value_hex_char by (apply N.mod_lt; lia).
    f_equal. rewrite Nat2N.inj_succ, N.pow_succ_r by lia.
    rewrite (N.Div0.mod_mul_r n 16 (16 ^ N.of_nat k)). lia.
Qed.

(** The string of a native key reads back as that key: [ObjectId(str(o))]
    is [o], for the 12-byte keys the store generates. *)
Lemma ObjectId_of_str_oid_str (o : ObjectId) :
  (oid_binary o < 2 ^ 96)%N -> ObjectId_of_str (oid_str o) = Some o.
Proof.
  intros H. unfold ObjectId_of_str.
  rewrite oid_str_length. change (Nat.eqb 24 24) with true. cbv iota.
  unfold oid_str. rewrite hex_fold_hex_digits.
  cbn [list_ascii_of_string hex_fold option_map].
  rewrite N.mul_0_l, N.add_0_l.
  assert (E : (16 ^ N.of_nat 24 = 2 ^ 96)%N) by (vm_compute; reflexivity).
  rewrite E, N.mod_small by exact H.
  destruct o; reflexivity.
Qed.

(** With unique native keys, a lookup by key finds the record that
    carries it. *)
Lemma find_by_key (c : list doc) (d : doc) (k : value) :
  well_keyed c -> In d c -> d !! "_id" = Some k ->
  List.find (matches [("_id", k)]) c = Some d.
Proof.
  intros [Hc Hnd] Hin Hk. induction c as [| x c IH]; [done |].
  apply Forall_cons in Hc as [(v & Hv & Ha) Hc].
  simpl in Hnd. inversion Hnd as [| ? ? Hx Hnd']; subst. simpl.
  destruct (matches [("_id", k)] x) eqn:Hm.
  - destruct Hin as [-> | Hin]; [done |].
    apply (matches_scalar "_id" k v x Hv Ha) in Hm. subst v.
    exfalso. apply Hx. rewrite Hv, <- Hk. apply list_elem_of_In.
    by apply (in_map (fun d => d !! "_id")).
  - destruct Hin as [-> | Hin]; [| by apply IH].
    by rewrite (matches_field _ _ _ Hk) in Hm.
Qed.

(** The string a response shows for the native key of a record, used as
    the segment of GET /songs/<id>, gets that record, provided one of
    its digits is a letter: [get_song] undoes what [parse_json] did to
    the key. *)
Theorem get_song_by_rendered_key (w : world) (d : doc) (o : ObjectId) :
  faults w = [] -> well_keyed (songs w) -> In d (songs w) ->
  d !! "_id" = Some (VOid o) -> (oid_binary o < 2 ^ 96)%N ->
  isdigit (oid_str o) = false ->
  json_field "_id" (parse_json_doc d)
  = Some (VObj [("$oid", VStr (oid_str o))]) /\
  fst (get_song (oid_str o) w) = Return (Json (parse_json_doc d), OK).
Proof.
  intros Hw Hwk Hin Hk Ho Hdig.
  split; [by apply parse_json_doc_native_key |].
  destruct (flexible_id_native_key w (oid_str o) o Hw Hdig
              (ObjectId_of_str_oid_str o Ho)) as [-> _].
  cbv zeta. rewrite (find_by_key _ d) by done.
  by rewrite (found_field d "_id" (VOid o)).
Qed.

Lemma get_song_by_rendered_key_witness :
  let d1 : doc := {["_id" := VOid (Oid 254); "id" := VInt 1]} in
  let d2 : doc := {["_id" := VOid (Oid 255); "id" := VInt 2]} in
  let w := World [d1; d2] 256 [] [] [] in
  oid_str (Oid 255) = "0000000000000000000000ff" /\
  fst (get_song (oid_str (Oid 255)) w) = Return (Json (parse_json_doc d2), OK).
Proof.
  intros d1 d2 w. split; [vm_compute; reflexivity |].
  apply (get_song_by_rendered_key w d2 (Oid 255)).
  - reflexivity.
  - split.
    + repeat constructor; vm_compute; eauto.
    + vm_compute. apply NoDup_cons_2.
      * rewrite list_elem_of_In. intros [H | []]. discriminate H.
      * apply NoDup_singleton.
  - right. left. reflexivity.
  - vm_compute. reflexivity.
  - reflexivity.
  - vm_compute. reflexivity.
Defined.

(** A native key whose 24 digits are all decimal is out of reach of the
    flexible routes: the segment is read as a number, and the one store
    call of GET and of DELETE queries [id] for that number, never
    [_id]. When the number is of at most eight bytes and no record
    matches it, both answer not-found and the record that carries the
    key stays where it is. *)
Theorem decimal_key_is_shadowed (w : world) (d : doc) (o : ObjectId)
    (n : Z) :
  faults w = [] -> In d (songs w) -> d !! "_id" = Some (VOid o) ->
  py_int (oid_str o) = Some n ->
  (exists r,
     calls (snd (get_song (oid_str o) w))
     = calls w ++ [StoreCall (OpFindOne [("id", VInt n)]) r]) /\
  (exists r,
     calls (snd (delete_song_legacy (oid_str o) w))
     = calls w ++ [StoreCall (OpDeleteOne [("id", VInt n)]) r]) /\
  (int64 n = true -> unmatched [("id", VInt n)] (songs w) ->
   fst (get_song (oid_str o) w)
   = Return (message "message" "Song not found", NOT_FOUND) /\
   fst (delete_song_legacy (oid_str o) w)
   = Return (message "message" "Song not found", NOT_FOUND) /\
   In d (songs (snd (delete_song_legacy (oid_str o) w)))).
Proof.
  intros Hw Hin Hk. generalize (oid_str o). intros s Hn.
  destruct (py_int_Some s n Hn) as [Hdec _].
  pose proof (isdecimal_isdigit _ Hdec) as Hdig.
  destruct w as [c m fl cs lg]; simpl in *; subst fl.
  split; [| split].
  - handler. rewrite Hdig, Hn. handler.
    destruct (found _); handler; eauto.
  - handler. rewrite Hdig, Hn. handler.
    destruct (store_delete _ c) as [k c']. handler.
    destruct (k =? 0); handler; eauto.
  - intros _ Hun. handler. rewrite Hdig, Hn. handler.
    rewrite find_unmatched, store_delete_unmatched by done.
    by handler.
Qed.

Lemma decimal_key_is_shadowed_witness :
  let d : doc := {["_id" := VOid (Oid 291); "id" := VInt 1]} in
  let w := World [d] 292 [] [] [] in
  oid_str (Oid 291) = "000000000000000000000123" /\
  exists r,
    calls (snd (get_song (oid_str (Oid 291)) w))
    = calls w ++ [StoreCall (OpFindOne [("id", VInt 123)]) r].
Proof.
  intros d w. split; [vm_compute; reflexivity |].
  assert (Hk : d !! "_id" = Some (VOid (Oid 291))) by (vm_compute; reflexivity).
  assert (Hn : py_int (oid_str (Oid 291)) = Some 123)
    by (vm_compute; reflexivity).
  destruct (decimal_key_is_shadowed w d (Oid 291) 123 eq_refl
              (or_introl eq_refl) Hk Hn) as [H _].
  exact H.
Defined.

(** ** Create *)

(** A store call when the next one is scheduled to go through. *)
Lemma db_call_answering {A} (op : store_op)
    (f : list doc -> result A * list doc) (w : world) (fl : list bool) :
  faults w = false :: fl ->
  db_call op f w
  = (fst (f (songs w)),
     World (snd (f (songs w))) (next_oid w) fl
       (calls w ++ [StoreCall op (raised (fst (f (songs w))))]) (app_log w)).
Proof. intros H. unfold db_call. rewrite H. by destruct (f (songs w)). Qed.

(** The internal error of a create does not mean that nothing was
    created: when the insert of a payload that the store takes as it is
    written goes through and the lookup of the new record fails, the
    answer is 500 and the record is in the collection. *)
Theorem create_failure_after_insert (w : world) (m : http_method)
    (fs : list (string * value)) (fl : list bool) :
  let o := Oid (next_oid w mod 2 ^ 96)%N in
  let k := match doc_of_fields fs !! "_id" with
           | Some k => k
           | None => VOid o
           end in
  let d := <["_id" := k]> (doc_of_fields fs) in
  faults w = false :: true :: fl -> fs <> [] ->
  storable (VObj fs) = true ->
  doc_of_fields fs !! "id" = None ->
  generator_ahead w ->
  (forall k', doc_of_fields fs !! "_id" = Some k' ->
     is_array k' = false /\ Forall (fun x => x !! "_id" <> Some k') (songs w)) ->
  exists w',
    create_song (Request m (Some (VObj fs))) w
    = (Return (message "error" "Failed to create song", INTERNAL_SERVER_ERROR),
       w') /\
    songs w' = songs w ++ [d] /\
    calls w' = calls w ++
      [StoreCall (OpInsertOne (VObj fs)) None;
       StoreCall (OpFindOne [("_id", k)]) (Some PyMongoError)].
Proof.
  intros o k d Hw Hfs _ Hid Hg Hp.
  destruct (new_key_free w fs Hg Hp) as [Ha Hfresh]. fold o k in Ha, Hfresh.
  destruct w as [c n fl0 cs lg]; simpl in *; subst fl0.
  handler. rewrite truthy_fields by done. rewrite Hid.
  rewrite bool_decide_eq_false_2 by (by intros [? ?]).
  destruct (doc_of_fields fs !! "_id") as [k' |] eqn:Hkey.
  - assert (Hk : k = k') by reflexivity. clearbody k. subst k.
    assert (Hsame : doc_of_fields fs = d).
    { subst d. by rewrite insert_id. }
    handler. rewrite (db_call_answering _ _ _ (true :: fl)) by reflexivity.
    handler. rewrite Hsame. rewrite store_insert_fresh by done. handler.
    rewrite (db_call_failing _ _ _ fl) by reflexivity.
    handler. eexists. repeat split. by rewrite <- app_assoc.
  - assert (Hk : k = VOid o) by reflexivity. clearbody k. subst k.
    handler. rewrite (db_call_answering _ _ _ (true :: fl)) by reflexivity.
    handler. fold o. rewrite store_insert_fresh by done. handler.
    rewrite (db_call_failing _ _ _ fl) by reflexivity.
    handler. fold o d. eexists. repeat split. by rewrite <- app_assoc.
Qed.

Lemma create_failure_after_insert_witness :
  let fs := [("title", VStr "A")] in
  let d := <["_id" := VOid (Oid 0)]> (doc_of_fields fs) in
  exists w',
    create_song (Request POST (Some (VObj fs))) (World [] 0 [false; true] [] [])
    = (Return (message "error" "Failed to create song", INTERNAL_SERVER_ERROR),
       w') /\
    songs w' = [] ++ [d].
Proof.
  intros fs d.
  destruct (create_failure_after_insert (World [] 0 [false; true] [] [])
              POST fs [])
    as (w' & H1 & H2 & _).
  - reflexivity.
  - discriminate.
  - vm_compute. reflexivity.
  - vm_compute. reflexivity.
  - split; [reflexivity | constructor].
  - intros k' Hk'. vm_compute in Hk'. discriminate.
  - exists w'. split; [exact H1 | exact H2].
Defined.

(** An integer field of a payload that is [storable] is of at most
    eight bytes. *)
Lemma storable_field_int64 (fs : list (string * value)) (k : string) (n : Z) :
  storable (VObj fs) = true -> doc_of_fields fs !! k = Some (VInt n) ->
  int64 n = true.
Proof.
  intros Hs Hk. unfold storable in Hs. apply andb_true_iff in Hs as [Hs _].
  unfold doc_of_fields in Hk. apply elem_of_list_to_map_2 in Hk.
  unfold max_nesting in Hs. remember 63%nat as depth eqn:E.
  assert (E' : depth = S 62) by (by subst depth). clear E.
  cbn [plain_within] in Hs.
  induction fs as [| [k' x] fs IH]; [by apply elem_of_nil in Hk |].
  apply andb_true_iff in Hs as [Hs Hrest].
  apply andb_true_iff in Hs as [_ Hx].
  apply elem_of_cons in Hk as [[= <- <-] | Hk]; [| by apply IH].
  subst depth. exact Hx.
Qed.



(** ** Native keys stay unique *)

(** An insert that goes through appends a record whose key is no array
    and was carried by no record. *)
Lemma insert_one_fresh (document : value) (w w' : world) (k : value) :
  insert_one document w = (Return k, w') ->
  exists d,
    songs w' = songs w ++ [d] /\ d !! "_id" = Some k /\
    is_array k = false /\
    Forall (fun x => x !! "_id" <> Some k) (songs w).
Proof.
  destruct document as [| | | | | | fs]; try done.
  unfold insert_one. destruct (doc_of_fields fs !! "_id") as [k' |] eqn:Hk.
  - intros H.
    apply db_call_inv in H as (_ & _ & _ & _ & [(? & _) | [H _]]); [done |].
    apply store_insert_cases in H as [(e & ? & _) | ([= ->] & -> & Ha & Hf)];
      [done |].
    eauto.
  - unfold bind, new_ObjectId. intros H.
    apply db_call_inv in H as (_ & _ & _ & _ & [(? & _) | [H _]]); [done |].
    apply store_insert_cases in H as [(e & ? & _) | ([= <-] & H & Ha & Hf)];
      [done |].
    simpl in *.
    eexists. split; [exact H |]. split; [apply lookup_insert_eq | done].
Qed.

Lemma well_keyed_insert (c : list doc) (d : doc) (k : value) :
  well_keyed c -> d !! "_id" = Some k -> is_array k = false ->
  Forall (fun x => x !! "_id" <> Some k) c ->
  well_keyed (c ++ [d]).
Proof.
  intros [Hs Hnd] Hk Ha Hf. split.
  - apply Forall_app. split; [done |]. apply Forall_singleton. eauto.
  - unfold native_keys. rewrite map_app. apply NoDup_app.
    split; [done |]. split; [| apply NoDup_singleton].
    intros x Hx Hx'. simpl in Hx'. apply list_elem_of_singleton in Hx'. subst x.
    apply list_elem_of_In, in_map_iff in Hx as (y & Hy & Hin).
    rewrite Forall_forall in Hf. apply (Hf y); [by apply list_elem_of_In |].
    by rewrite Hy.
Qed.

Lemma well_keyed_removed (q : query) (c c' : list doc) :
  well_keyed c -> removed_first q c c' -> well_keyed c'.
Proof.
  intros [Hs Hnd] (l1 & d & l2 & -> & _ & _ & ->). split.
  - apply Forall_app in Hs as [H1 H2]. apply Forall_cons in H2 as [_ H2].
    by apply Forall_app.
  - unfold native_keys in *. rewrite map_app in *. simpl in Hnd.
    apply NoDup_app in Hnd as (H1 & H2 & H3).
    apply NoDup_cons in H3 as [_ H3].
    apply NoDup_app. split; [done |]. split; [| done].
    intros x Hx Hx'. apply (H2 x Hx). by right.
Qed.

Lemma well_keyed_update (q : query) (upd : doc) (c c' : list doc)
    (a : option doc) :
  well_keyed c -> store_update q upd c = (Return a, c') -> well_keyed c'.
Proof.
  intros [Hs Hnd] H.
  destruct (store_update_cases q upd c)
    as [[_ E] | (l1 & d & l2 & -> & _ & _ & [[Hck E] | [_ E]])];
    rewrite E in H; try done; injection H as <- <-; [done |].
  apply merge_keeps_key in Hck. split.
  - apply Forall_app in Hs as [H1 H2]. apply Forall_cons in H2 as [Hd H2].
    apply Forall_app. split; [done |]. apply Forall_cons. split; [| done].
    by rewrite Hck.
  - unfold native_keys in *. rewrite map_app in *. simpl in *. by rewrite Hck.
Qed.

(** Whatever the request and whatever the store does, the collection
    comes out of it with a native key on every record and no key on two
    records, when it went in that way. *)
Theorem routes_keep_well_keyed (p : path) (request : request)
    (view : M response) (w w' : world) (r : result response) :
  route p request = Some view -> view w = (r, w') ->
  well_keyed (songs w) -> well_keyed (songs w').
Proof.
  intros Hroute H Hwk. destruct request as [m j].
  destruct p, m; simpl in Hroute; simplify_eq; open_view; simpl in H;
    run_inv;
    repeat
      match goal with
      | H : delete_one _ _ = _ |- _ =>
          apply delete_one_cases in H as [[? ?] | [[? ?] | [? ?]]]
      | H : find_one_and_update _ _ _ = (Return _, _) |- _ =>
          apply find_one_and_update_inv in H
            as [(? & ? & ?) | (? & ? & _ & _ & H)]
      | H : insert_one _ _ = (Return _, _) |- _ =>
          apply insert_one_fresh in H as (? & ? & ? & ? & ?)
      end; simplify_eq; frame;
    repeat
      match goal with
      | H : songs _ = _ |- _ => rewrite H in *; clear H
      end;
    first
      [ assumption
      | eapply well_keyed_removed; eassumption
      | eapply well_keyed_update; eassumption
      | eapply well_keyed_insert; eassumption ].
Qed.

Lemma routes_keep_well_keyed_witness :
  let d : doc := {["_id" := VOid (Oid 0); "id" := VInt 7]} in
  let w := World [d] 1 [] [] [] in
  let request := Request POST (Some (VObj [("title", VStr "C")])) in
  well_keyed (songs (snd (create_song request w))).
Proof.
  intros d w request.
  apply (routes_keep_well_keyed PathSong request (create_song request) w _
           (fst (create_song request w))).
  - reflexivity.
  - apply surjective_pairing.
  - split.
    + repeat constructor. vm_compute. eauto.
    + vm_compute. apply NoDup_singleton.
Defined.

(** ** Update *)

Lemma merge_twice (upd d : doc) : upd ∪ (upd ∪ d) = upd ∪ d.
Proof. by rewrite (assoc_L (∪)), (idemp_L (∪)). Qed.

Lemma changes_key_merged (upd d : doc) : changes_key upd (upd ∪ d) = false.
Proof.
  unfold changes_key. destruct (upd !! "_id") as [k |] eqn:Hk; [| done].
  apply negb_false_iff, has_key_field. by apply lookup_union_Some_l.
Qed.

(** Updating again with the same fields changes nothing more, as long
    as the merged record still matches the query. *)
Lemma store_update_again (q : query) (upd : doc) (c c' : list doc)
    (r : result (option doc)) :
  (forall d, matches q d = true -> matches q (upd ∪ d) = true) ->
  store_update q upd c = (r, c') -> store_update q upd c' = (r, c').
Proof.
  intros Hq H.
  destruct (store_update_cases q upd c)
    as [[_ E] | (l1 & d & l2 & -> & Hl1 & Hd & [[Hck E] | [_ E]])];
    rewrite E in H; injection H as <- <-; try done.
  rewrite store_update_first.
  - by rewrite merge_twice.
  - done.
  - by apply Hq.
  - apply changes_key_merged.
Qed.

(** One PUT /song/<n> with a payload, by what the store makes of the
    update. *)
Lemma handle_song_put_run (w : world) (fs : list (string * value)) (n : Z)
    (r : result (option doc)) (c' : list doc) :
  faults w = [] -> truthy (VObj fs) = true ->
  store_update [("id", VInt n)] (doc_of_fields fs) (songs w) = (r, c') ->
  exists w',
    handle_song (Request PUT (Some (VObj fs))) n w
    = (Return
         match r with
         | Return a =>
             if found a then (Json (parse_json a), CREATED)
             else (message "message" "song not found", NOT_FOUND)
         | Raise _ =>
             (message "error" "Failed to update song", INTERNAL_SERVER_ERROR)
         end, w') /\
    songs w' = c' /\ faults w' = [].
Proof.
  intros Hw Ht E.
  destruct w as [c i fl cs lg]; simpl in *; subst fl.
  handler. rewrite Ht. handler. rewrite E.
  destruct r as [a | e]; handler; [| by eexists].
  destruct (found a); by eexists.
Qed.

(** PUT /song/<n> is idempotent when the payload leaves [id] alone or
    sets it to [n], and its field names are plain, none a path into a
    record: sent again, it gets the same answer and changes nothing
    more, whether the first one updated a record, found none, or was
    refused. *)
Theorem put_is_idempotent (w : world) (fs : list (string * value)) (n : Z) :
  faults w = [] ->
  Forall (fun kv => plain_name (fst kv) = true) fs ->
  doc_of_fields fs !! "id" = None \/ doc_of_fields fs !! "id" = Some (VInt n) ->
  let request := Request PUT (Some (VObj fs)) in
  let w1 := snd (handle_song request n w) in
  fst (handle_song request n w1) = fst (handle_song request n w) /\
  songs (snd (handle_song request n w1)) = songs w1.
Proof.
  intros Hw _ Hid request w1.
  assert (Hq : forall d, matches [("id", VInt n)] d = true ->
                 matches [("id", VInt n)] (doc_of_fields fs ∪ d) = true).
  { intros d Hd. destruct Hid as [Hid | Hid].
    - rewrite matches_one in *. unfold field_matches in *; simpl in *.
      by rewrite lookup_union_r.
    - apply matches_field. by apply lookup_union_Some_l. }
  destruct (truthy (VObj fs)) eqn:Ht.
  - destruct (store_update [("id", VInt n)] (doc_of_fields fs) (songs w))
      as [r c'] eqn:E.
    pose proof (store_update_again _ _ _ _ _ Hq E) as E'.
    destruct (handle_song_put_run w fs n r c' Hw Ht E) as (w' & H1 & Hs & Hf).
    subst w1 request. rewrite H1. cbn [fst snd]. subst c'.
    destruct (handle_song_put_run w' fs n r (songs w') Hf Ht E')
      as (w'' & H2 & Hs' & _).
    by rewrite H2.
  - subst w1 request. unfold handle_song, try_except, bind, get_json, ret.
    cbn [method json]. rewrite Ht. cbn [negb fst snd]. rewrite ?Ht. done.
Qed.

Lemma put_is_idempotent_witness :
  let d : doc := {["_id" := VOid (Oid 0); "id" := VInt 7]} in
  let w := World [d] 1 [] [] [] in
  let request := Request PUT (Some (VObj [("title", VStr "C")])) in
  let w1 := snd (handle_song request 7 w) in
  fst (handle_song request 7 w1) = fst (handle_song request 7 w) /\
  songs (snd (handle_song request 7 w1)) = songs w1.
Proof.
  intros d w request w1.
  apply (put_is_idempotent w [("title", VStr "C")] 7).
  - reflexivity.
  - repeat constructor.
  - left. vm_compute. reflexivity.
Defined.
